(** * Room, message and identity persistence of the chat application

    A shallow embedding of [src/communication/database.ts] (the class
    [Database] and the schema that [databaseLoader.load] creates) and of the
    chat-completion route [handler.GET].

    Layers, leaf first:
    - [Js]: how an [async] method ends, in a value or in a thrown error;
    - [Pg]: the tables, constraints and view of the DDL in
      [databaseLoader.load], and the statements that run against them;
    - [Client]: the requests the class sends through the Supabase client, the
      storage's answer to each, and method bodies as programs that suspend on
      them ([await]);
    - [Database]: the methods of the class;
    - [Sched]: several pending calls served statement by statement;
    - [Completion]: the completion route.

    The storage is not part of the repository.  Its model keeps to what the
    DDL declares: a statement runs atomically and its effect is visible to the
    next one; a row is rejected exactly when a declared constraint says so; a
    result without [order by] comes in an order of the storage's choice; a
    request may also fail before it reaches the tables.  These choices, and
    the clock, are the [Env] of a statement.

    Integers are [Z] (the columns are Postgres [integer]s and the ids that the
    class receives are JavaScript numbers; the only arithmetic is the identity
    sequence).  Timestamps are [Z], an instant on the server clock. *)

From Stdlib Require Import ZArith NArith List String Bool Lia.
From Stdlib Require Import Permutation Sorted Orders Mergesort.
Import ListNotations.

Local Open Scope Z_scope.
Local Open Scope list_scope.

(** ** JavaScript outcomes *)

Module Js.

(** The two error classes that occur: [new Error(msg)] thrown by the class,
    and the [TypeError] the runtime raises on a property read of
    [undefined] or [null]. *)
Inductive JsError : Type :=
| Error (msg : string)
| TypeError (msg : string).

(** How an awaited method call ends: the promise resolves or rejects. *)
Inductive Outcome (R : Type) : Type :=
| Return (r : R)
| Throw (e : JsError).

Arguments Return {R} r.
Arguments Throw {R} e.

Definition returned {R : Type} (o : Outcome R) : bool :=
  match o with Return _ => true | Throw _ => false end.

Definition threw {R : Type} (o : Outcome R) : bool :=
  match o with Return _ => false | Throw _ => true end.

End Js.

Import Js.

(** ** Generic list helpers for result sets *)

(** [extract k l] takes the element at position [k] out of [l]. *)
Fixpoint extract {A : Type} (k : nat) (l : list A) {struct l} : option (A * list A) :=
  match l with
  | [] => None
  | x :: l' =>
      match k with
      | O => Some (x, l')
      | S k' =>
          match extract k' l' with
          | Some (y, r) => Some (y, x :: r)
          | None => None
          end
      end
  end.

(** The order in which a statement without [ORDER BY] delivers its rows is
    the storage's choice.  The choice is a list of picks: the first pick names
    the position of the row delivered first, the next pick a position among the
    remaining rows, and so on; rows left when the picks run out follow in table
    order.  The empty list is the scan in insertion order. *)
Fixpoint reorder {A : Type} (picks : list nat) (l : list A) : list A :=
  match picks with
  | [] => l
  | k :: ks =>
      match extract k l with
      | Some (x, r) => x :: reorder ks r
      | None => l
      end
  end.

(** ** The storage: schema and statements *)

Module Pg.

(** *** Rows, as declared by [create table] *)

Record UserRow : Type := mkUser {
  u_id : Z;
  u_created_at : Z;
  u_username : string;
  u_avatar_url : string;
  u_access_token : string
}.

Record RoomRow : Type := mkRoom {
  r_id : Z;
  r_created_at : Z;
  r_name : string;
  r_prompt : option string
}.

Record MessageRow : Type := mkMessage {
  m_id : Z;
  m_created_at : Z;
  m_message : string;
  m_from : option Z;
  m_room : option Z
}.

(** The database: the three tables in insertion order, the identity
    sequences of [rooms.id] and [messages.id] (last value handed out), and
    the server clock read by [now()]. *)
Record Store : Type := mkStore {
  users : list UserRow;
  rooms : list RoomRow;
  messages : list MessageRow;
  rooms_seq : Z;
  messages_seq : Z;
  clock : Z
}.

(** *** What the client gets back *)

Record PgError : Type := mkPgError {
  message : string;
  code : string
}.

Record Response (A : Type) : Type := mkResponse {
  data : option A;
  error : option PgError
}.

Arguments mkResponse {A} data error.
Arguments data {A} r.
Arguments error {A} r.

Definition ok {A : Type} (a : A) : Response A := mkResponse (Some a) None.
Definition minimal {A : Type} : Response A := mkResponse None None.
Definition failed {A : Type} (e : PgError) : Response A := mkResponse None (Some e).

(** SQLSTATE codes of the two constraint classes of the schema. *)
Definition unique_violation : string := "23505".
Definition foreign_key_violation : string := "23503".

Definition duplicate_key (constraint : string) : PgError :=
  mkPgError ("duplicate key value violates unique constraint " ++ constraint)
            unique_violation.

Definition missing_key (constraint : string) : PgError :=
  mkPgError ("insert or update on table messages violates foreign key constraint "
               ++ constraint)
            foreign_key_violation.

(** The answer to a request for a single object ([.single()]) when the
    statement does not yield exactly one row. *)
Definition not_single : PgError :=
  mkPgError "JSON object requested, multiple (or no) rows returned" "PGRST116".

(** *** Column predicates *)

Definition has_user_id (id : Z) (u : UserRow) : bool := u_id u =? id.
Definition has_username (n : string) (u : UserRow) : bool := String.eqb (u_username u) n.
Definition has_token (t : string) (u : UserRow) : bool := String.eqb (u_access_token u) t.
Definition has_room_id (id : Z) (r : RoomRow) : bool := r_id r =? id.
Definition has_room_name (n : string) (r : RoomRow) : bool := String.eqb (r_name r) n.
Definition has_message_id (id : Z) (m : MessageRow) : bool := m_id m =? id.

Definition in_room (id : Z) (m : MessageRow) : bool :=
  match m_room m with
  | Some r => r =? id
  | None => false
  end.

(** *** Writes *)

Definition set_rooms (db : Store) (rs : list RoomRow) (seq : Z) : Store :=
  mkStore (users db) rs (messages db) seq (messages_seq db) (clock db).

Definition set_messages (db : Store) (ms : list MessageRow) (seq : Z) : Store :=
  mkStore (users db) (rooms db) ms (rooms_seq db) seq (clock db).

Definition set_users (db : Store) (us : list UserRow) : Store :=
  mkStore us (rooms db) (messages db) (rooms_seq db) (messages_seq db) (clock db).

Definition advance (dt : N) (db : Store) : Store :=
  mkStore (users db) (rooms db) (messages db) (rooms_seq db) (messages_seq db)
          (clock db + Z.of_N dt).

(** [insert into rooms (name, prompt) values (...) returning *].  The id
    comes from the identity sequence, which keeps the value it handed out also
    when the row is rejected.  [rooms_pkey] and [rooms_name_key] are the
    unique indexes of [id ... primary key] and [name text unique]. *)
Definition rooms_insert (name : string) (prompt : option string) (db : Store)
  : Store * Response (list RoomRow) :=
  let id := rooms_seq db + 1 in
  if existsb (has_room_id id) (rooms db) then
    (set_rooms db (rooms db) id, failed (duplicate_key "rooms_pkey"))
  else if existsb (has_room_name name) (rooms db) then
    (set_rooms db (rooms db) id, failed (duplicate_key "rooms_name_key"))
  else
    let row := mkRoom id (clock db) name prompt in
    (set_rooms db (rooms db ++ [row]) id, ok [row]).

(** [insert into rooms (id, name) values (0, 'Lobby') on conflict(id) do
    nothing], the seed statement of the loader. *)
Definition seed_lobby (db : Store) : Store :=
  if existsb (has_room_id 0) (rooms db) then db
  else if existsb (has_room_name "Lobby") (rooms db) then db
  else set_rooms db (rooms db ++ [mkRoom 0 (clock db) "Lobby" None]) (rooms_seq db).

(** The database right after the loader ran on an empty one. *)
Definition empty : Store := mkStore [] [] [] 0 0 0.
Definition seeded : Store := seed_lobby empty.

(** [insert into messages (message, room, "from") values (...)].
    [messages_from_fkey] and [messages_room_fkey] are the two [references]
    constraints. *)
Definition messages_insert (text : string) (room from : Z) (db : Store)
  : Store * Response unit :=
  let id := messages_seq db + 1 in
  if existsb (has_message_id id) (messages db) then
    (set_messages db (messages db) id, failed (duplicate_key "messages_pkey"))
  else if negb (existsb (has_user_id from) (users db)) then
    (set_messages db (messages db) id, failed (missing_key "messages_from_fkey"))
  else if negb (existsb (has_room_id room) (rooms db)) then
    (set_messages db (messages db) id, failed (missing_key "messages_room_fkey"))
  else
    let row := mkMessage id (clock db) text (Some from) (Some room) in
    (set_messages db (messages db ++ [row]) id, minimal).

(** The row that an upsert leaves in place of [u]: every column of the
    payload is overwritten, [created_at] is not part of the payload. *)
Definition overwrite (new : UserRow) (u : UserRow) : UserRow :=
  if has_user_id (u_id new) u then
    mkUser (u_id u) (u_created_at u) (u_username new) (u_avatar_url new)
           (u_access_token new)
  else u.

(** [insert into users (id, username, avatar_url, access_token) values (...)
    on conflict (id) do update set ...]: the upsert resolves conflicts on the
    primary key only; [users_username_key] ([username text unique]) still
    rejects a name that another row holds. *)
Definition users_upsert (id : Z) (username avatar_url access_token : string)
  (db : Store) : Store * Response unit :=
  let new := mkUser id (clock db) username avatar_url access_token in
  if existsb (fun u => has_username username u && negb (has_user_id id u)) (users db)
  then (db, failed (duplicate_key "users_username_key"))
  else if existsb (has_user_id id) (users db) then
    (set_users db (map (overwrite new) (users db)), minimal)
  else
    (set_users db (users db ++ [new]), minimal).

(** *** Reads *)

(** Columns [id,username,avatar_url] of a user row. *)
Record UserCols : Type := mkUserCols {
  c_id : Z;
  c_username : string;
  c_avatar_url : string
}.

Definition user_cols (u : UserRow) : UserCols :=
  mkUserCols (u_id u) (u_username u) (u_avatar_url u).

(** [select id,username,avatar_url from users where access_token = t]. *)
Definition users_by_token (picks : list nat) (t : string) (db : Store) : list UserCols :=
  map user_cols (reorder picks (filter (has_token t) (users db))).

(** [select ... from rooms where id = ...] and [... where name = ...]. *)
Definition rooms_by_id (picks : list nat) (id : Z) (db : Store) : list RoomRow :=
  reorder picks (filter (has_room_id id) (rooms db)).

Definition rooms_by_name (picks : list nat) (n : string) (db : Store) : list RoomRow :=
  reorder picks (filter (has_room_name n) (rooms db)).

(** A result set requested as one object. *)
Definition single {A : Type} (l : list A) : Response A :=
  match l with
  | [x] => ok x
  | _ => failed not_single
  end.

(** The embedded resource [from(username,avatar_url)]: the user that the
    foreign key [messages.from] points to, [null] when there is none. *)
Record UserEmbed : Type := mkUserEmbed {
  e_username : string;
  e_avatar_url : string
}.

Record MessageCols : Type := mkMessageCols {
  c_message : string;
  c_from : option UserEmbed;
  c_created_at : Z
}.

Definition embed_from (db : Store) (m : MessageRow) : option UserEmbed :=
  match m_from m with
  | None => None
  | Some id =>
      match find (has_user_id id) (users db) with
      | Some u => Some (mkUserEmbed (u_username u) (u_avatar_url u))
      | None => None
      end
  end.

Definition message_cols (db : Store) (m : MessageRow) : MessageCols :=
  mkMessageCols (m_message m) (embed_from db m) (m_created_at m).

(** [select message,from(username,avatar_url),created_at from messages where
    room = id]: no [order by]. *)
Definition messages_by_room (picks : list nat) (id : Z) (db : Store) : list MessageCols :=
  map (message_cols db) (reorder picks (filter (in_room id) (messages db))).

(** *** The view [rooms_with_activity] *)

Record ActivityRow : Type := mkActivity {
  a_id : Z;
  a_name : string;
  a_last_message_at : option Z
}.

(** [max(messages.created_at)] over a group of the left join: [null] for a
    room that no message refers to. *)
Definition max_created_at (ms : list MessageRow) : option Z :=
  fold_right
    (fun m acc =>
       match acc with
       | None => Some (m_created_at m)
       | Some t => Some (Z.max (m_created_at m) t)
       end)
    None ms.

Definition activity (db : Store) (r : RoomRow) : ActivityRow :=
  mkActivity (r_id r) (r_name r)
             (max_created_at (filter (in_room (r_id r)) (messages db))).

(** [desc nulls last] on a nullable timestamp: [a] may stand before [b]. *)
Definition desc_nulls_last (a b : option Z) : bool :=
  match a, b with
  | _, None => true
  | None, Some _ => false
  | Some x, Some y => y <=? x
  end.

Module ActivityOrder <: TotalLeBool.
Definition t : Type := ActivityRow.
Definition leb (a b : ActivityRow) : bool :=
  desc_nulls_last (a_last_message_at a) (a_last_message_at b).
Lemma leb_total : forall a b, leb a b = true \/ leb b a = true.
Proof.
  intros a b. unfold leb, desc_nulls_last.
  destruct (a_last_message_at a) as [x|], (a_last_message_at b) as [y|]; auto.
  destruct (Z.leb_spec y x); [now left | right; apply Z.leb_le; lia].
Qed.
End ActivityOrder.

Module ActivitySort := Sort ActivityOrder.

(** The rows of the view: one per room (the groups of [group by rooms.id]),
    delivered by the aggregation in an order of its choice and then sorted by
    [order by last_message_at desc nulls last]. *)
Definition rooms_with_activity (picks : list nat) (db : Store) : list ActivityRow :=
  ActivitySort.sort (reorder picks (map (activity db) (rooms db))).

(** *** The environment of one statement *)

(** What the storage decides on its own while it serves one request: whether
    the request fails before it reaches the tables (transport, authorisation,
    server fault), how much time passed on the server clock since the previous
    statement, and the order of the rows of an unordered result. *)
Record Env : Type := mkEnv {
  fault : option PgError;
  elapsed : N;
  picks : list nat
}.

(** The environment in which nothing fails, no time passes and rows come in
    insertion order. *)
Definition calm : Env := mkEnv None 0%N [].

End Pg.

Import Pg.

(** ** The client and programs over it *)

Module Client.

(** The requests that [Database] sends through [this.#client], one
    constructor per call site shape.  The index is the type of [data]. *)
Inductive Query : Type -> Type :=
| UsersUpsert (id : Z) (username avatar_url access_token : string) : Query unit
    (* from("users").upsert([{...}], { returning: "minimal" }) *)
| UsersSelectByToken (accessToken : string) : Query (list UserCols)
    (* from("users").select("id,username,avatar_url").eq("access_token", t) *)
| ActivitySelect : Query (list ActivityRow)
    (* from("rooms_with_activity").select("id,name,last_message_at") *)
| RoomsSelectName (roomId : Z) : Query (list string)
    (* from("rooms").select("name").eq("id", roomId) *)
| RoomsSelectNamePromptSingle (roomId : Z) : Query (string * option string)
    (* from("rooms").select("name,prompt").eq("id", roomId).single() *)
| RoomsSelectPromptSingle (roomId : Z) : Query (option string)
    (* from("rooms").select("prompt").eq("id", roomId).single() *)
| RoomsInsert (name : string) (prompt : option string) : Query (list RoomRow)
    (* from("rooms").insert([{ name, prompt }], { upsert: false, returning: "representation" }) *)
| RoomsSelectIdByName (name : string) : Query (list Z)
    (* from("rooms").select("id").eq("name", name) *)
| MessagesInsert (text : string) (room from : Z) : Query unit
    (* from("messages").insert([{ message, room, from }], { returning: "minimal" }) *)
| MessagesSelectByRoom (roomId : Z) : Query (list MessageCols).
    (* from("messages").select("message,from(username,avatar_url),created_at").eq("room", roomId) *)

(** The statement behind each request, on a database that the request
    reached. *)
Definition statement {A : Type} (q : Query A) (ps : list nat) (db : Store)
  : Store * Response A :=
  match q in Query T return Store * Response T with
  | UsersUpsert id n a t => users_upsert id n a t db
  | UsersSelectByToken t => (db, ok (users_by_token ps t db))
  | ActivitySelect => (db, ok (rooms_with_activity ps db))
  | RoomsSelectName id => (db, ok (map r_name (rooms_by_id ps id db)))
  | RoomsSelectNamePromptSingle id =>
      (db, single (map (fun r => (r_name r, r_prompt r)) (rooms_by_id ps id db)))
  | RoomsSelectPromptSingle id =>
      (db, single (map r_prompt (rooms_by_id ps id db)))
  | RoomsInsert n p => rooms_insert n p db
  | RoomsSelectIdByName n => (db, ok (map r_id (rooms_by_name ps n db)))
  | MessagesInsert text room from => messages_insert text room from db
  | MessagesSelectByRoom id => (db, ok (messages_by_room ps id db))
  end.

(** The storage answers one request: the clock moves on, then either the
    request fails on its way (the tables are untouched) or the statement
    runs. *)
Definition answer {A : Type} (env : Env) (db : Store) (q : Query A)
  : Store * Response A :=
  let db' := advance (elapsed env) db in
  match fault env with
  | Some e => (db', failed e)
  | None => statement q (picks env) db'
  end.

(** A method body: straight-line code between [await]s on the client. *)
Inductive Prog (R : Type) : Type :=
| Ret (r : R)
| Raise (e : JsError)
| Await (A : Type) (q : Query A) (k : Response A -> Prog R).

Arguments Ret {R} r.
Arguments Raise {R} e.
Arguments Await {R A} q k.

Fixpoint bind {A B : Type} (p : Prog A) (f : A -> Prog B) : Prog B :=
  match p with
  | Ret a => f a
  | Raise e => Raise e
  | Await q k => Await q (fun r => bind (k r) f)
  end.

(** Runs a call to completion with nothing else touching the database; the
    n-th [await] is served in the n-th environment ([calm] when the list is
    used up). *)
Fixpoint run {R : Type} (p : Prog R) (envs : list Env) (db : Store)
  : Store * Outcome R :=
  match p with
  | Ret r => (db, Return r)
  | Raise e => (db, Throw e)
  | Await q k =>
      let '(db', r) := answer (hd calm envs) db q in
      run (k r) (tl envs) db'
  end.

End Client.

Import Client.

Declare Scope prog_scope.
Delimit Scope prog_scope with prog.
Notation "'let!' r ':=' 'await' q 'in' k" :=
  (Await q (fun r => k))
  (at level 10, r name, q at level 10, k at level 200) : prog_scope.
Notation "'let!' x ':=' 'call' p 'in' k" :=
  (bind p (fun x => k))
  (at level 10, x name, p at level 10, k at level 200) : prog_scope.

Local Open Scope prog_scope.

(** ** The class [Database] *)

Module Database.

Record DatabaseUser : Type := mkDatabaseUser {
  userId : Z;
  userName : string;
  avatarUrl : string
}.

(** The element type of [getRooms]. *)
Record RoomView : Type := mkRoomView {
  roomId : Z;
  name : string;
  lastMessageAt : option Z
}.

(** [MessageView] of [./types.ts], as [getRoomMessages] builds it. *)
Record UserView : Type := mkUserView {
  v_name : string;
  v_avatarUrl : string
}.

Record MessageView : Type := mkMessageView {
  v_message : string;
  v_from : UserView;
  v_createdAt : Z
}.

Record NamePrompt : Type := mkNamePrompt {
  np_name : string;
  np_prompt : option string
}.

(** [if (error) { throw new Error(error.message); }] followed by the rest of
    the method. *)
Definition unless_error {A R : Type} (r : Response A) (rest : Prog R) : Prog R :=
  match error r with
  | Some e => Raise (Error (message e))
  | None => rest
  end.

(** A read of a property of [data] when [data] is [null]. *)
Definition null_read {R : Type} (property : string) : Prog R :=
  Raise (TypeError ("Cannot read properties of null (reading " ++ property ++ ")")).

Definition undefined_read {R : Type} (property : string) : Prog R :=
  Raise (TypeError ("Cannot read properties of undefined (reading " ++ property ++ ")")).

Definition insertUser (user : DatabaseUser) (accessToken : string) : Prog unit :=
  let! r := await UsersUpsert (userId user) (userName user) (avatarUrl user) accessToken in
  unless_error r (Ret tt).

Definition getUserByAccessToken (accessToken : string) : Prog (option DatabaseUser) :=
  let! r := await UsersSelectByToken accessToken in
  unless_error r
    match data r with
    | None => null_read "length"
    | Some [] => Ret None
    | Some (d :: _) => Ret (Some (mkDatabaseUser (c_id d) (c_username d) (c_avatar_url d)))
    end.

Definition getUserByAccessTokenOrThrow (accessToken : string) : Prog DatabaseUser :=
  let! user := call getUserByAccessToken accessToken in
  match user with
  | None => Raise (Error "Could not find user with access token.")
  | Some u => Ret u
  end.

(** The callback of [data.map] in [getRooms]. *)
Definition room_view (d : ActivityRow) : RoomView :=
  mkRoomView (a_id d) (a_name d) (a_last_message_at d).

Definition getRooms : Prog (list RoomView) :=
  let! r := await ActivitySelect in
  unless_error r
    match data r with
    | None => null_read "map"
    | Some rows => Ret (map room_view rows)
    end.

Definition getRoomName (roomId : Z) : Prog string :=
  let! r := await RoomsSelectName roomId in
  unless_error r
    match data r with
    | None => null_read "0"
    | Some [] => undefined_read "name"
    | Some (n :: _) => Ret n
    end.

Definition getRoomNamePrompt (roomId : Z) : Prog NamePrompt :=
  let! r := await RoomsSelectNamePromptSingle roomId in
  unless_error r
    match data r with
    | None => null_read "name"
    | Some (n, p) => Ret (mkNamePrompt n p)
    end.

(** [return data?.prompt]: a [null] [data] yields [undefined], which reads
    as an absent prompt. *)
Definition getRoomPrompt (roomId : Z) : Prog (option string) :=
  let! r := await RoomsSelectPromptSingle roomId in
  unless_error r
    match data r with
    | None => Ret None
    | Some p => Ret p
    end.

(** The second half of [ensureRoom]: the re-read by name.  The result is
    [undefined] ([None]) when the function runs off its end. *)
Definition ensureRoom_get (name : string) : Prog (option Z) :=
  let! get := await RoomsSelectIdByName name in
  unless_error get
    match data get with
    | Some (id :: _) => Ret (Some id)
    | _ => Ret None
    end.

Definition ensureRoom (name : string) (prompt : string) : Prog (option Z) :=
  let! insert := await RoomsInsert name (Some prompt) in
  match error insert with
  | Some e =>
      if negb (String.eqb (code e) "23505") then Raise (Error (message e))
      else ensureRoom_get name
  | None => ensureRoom_get name
  end.

Definition insertMessage (text : string) (roomId userId : Z) : Prog unit :=
  let! _r := await MessagesInsert text roomId userId in
  Ret tt.

(** [data.map(...)]: the callback reads [m.from.username], which throws on
    the first row whose [from] is [null]. *)
Fixpoint message_views (rows : list MessageCols) : Prog (list MessageView) :=
  match rows with
  | [] => Ret []
  | m :: rest =>
      match c_from m with
      | None => null_read "username"
      | Some u =>
          let! views := call message_views rest in
          Ret (mkMessageView (c_message m)
                 (mkUserView (e_username u) (e_avatar_url u))
                 (c_created_at m) :: views)
      end
  end.

Definition getRoomMessages (roomId : Z) : Prog (list MessageView) :=
  let! r := await MessagesSelectByRoom roomId in
  unless_error r
    match data r with
    | None => null_read "map"
    | Some rows => message_views rows
    end.

End Database.

Import Database.

(** ** Pending calls that share the database *)

Module Sched.

(** A pending call resumes: the statement it is suspended on runs, and the
    method continues up to its next [await] or to its end.  Statements are the
    units of interleaving, since the methods span no transaction. *)
Definition resume {R : Type} (env : Env) (db : Store) (p : Prog R) : Store * Prog R :=
  match p with
  | Await q k => let '(db', r) := answer env db q in (db', k r)
  | _ => (db, p)
  end.

Fixpoint update {A : Type} (i : nat) (x : A) (l : list A) : list A :=
  match l, i with
  | [], _ => []
  | _ :: l', O => x :: l'
  | y :: l', S i' => y :: update i' x l'
  end.

(** One scheduling decision: which call resumes and in which environment. *)
Definition Decision : Type := (nat * Env)%type.

Definition step {R : Type} (d : Decision) (s : Store * list (Prog R))
  : Store * list (Prog R) :=
  match nth_error (snd s) (fst d) with
  | Some p =>
      let '(db', p') := resume (snd d) (fst s) p in
      (db', update (fst d) p' (snd s))
  | None => s
  end.

Fixpoint interleave {R : Type} (sched : list Decision) (s : Store * list (Prog R))
  : Store * list (Prog R) :=
  match sched with
  | [] => s
  | d :: sched' => interleave sched' (step d s)
  end.

(** The calls [ensureRoom({name, prompt})] of a list of requests, all
    started and none served yet. *)
Definition ensureRoom_calls (reqs : list (string * string)) : list (Prog (option Z)) :=
  map (fun r => ensureRoom (fst r) (snd r)) reqs.

(** How often a schedule resumes call [i]. *)
Definition resumes (sched : list Decision) (i : nat) : nat :=
  count_occ Nat.eq_dec (map fst sched) i.

End Sched.

(** ** The completion route *)

Module Completion.

Inductive Role : Type := system | user.

(** One entry of [messages]. *)
Record Instruction : Type := mkInstruction {
  role : Role;
  content : string
}.

Record ChatRequest : Type := mkChatRequest {
  model : string;
  messages : list Instruction
}.

(** The two constants of the handler. *)
Definition SystemRoleContenet : string :=
  "شات جي بي تي  انت تفهم جميع اللغاتوفي جميع المجالاتاي نص اعطيته لك افهمه وعالجه وورد على اي إستفسار لك رد باللهجة المغربية يمكنك كتابة كلمات تقنية لكن اكتبها بالدارجة المغربية، ركز الرد بالدارجة المغربية".

Definition userContent : string := "jock for animal dog".

(** The argument of [openAI.createChatCompletion] in [handler.GET]. *)
Definition chatCompletionRequest : ChatRequest :=
  mkChatRequest "gpt-3.5-turbo"
    [ mkInstruction system SystemRoleContenet;
      mkInstruction user userContent ].

(** The request that [handler.GET(_req, _ctx)] sends to the provider.  The
    handler reads neither of its arguments (the line that would read the body
    of [_req] is commented out). *)
Definition GET_request {Req Ctx : Type} (_req : Req) (_ctx : Ctx) : ChatRequest :=
  chatCompletionRequest.

(** The provider's answer, as far as the handler reads it:
    [choices[i].message.content]. *)
Record ChatMessage : Type := mkChatMessage {
  msg_content : string
}.

Record Choice : Type := mkChoice {
  choice_message : ChatMessage
}.

Record ChatCompletion : Type := mkChatCompletion {
  choices : list Choice
}.

(** [chatCompletion?.choices] followed by [choices[0]?.message.content]:
    a nullish completion leaves [choices] undefined and the index read throws;
    a missing first choice makes the optional chain yield [undefined]. *)
Definition extractReply (chatCompletion : option ChatCompletion) : Outcome (option string) :=
  match chatCompletion with
  | None => Throw (TypeError "Cannot read properties of undefined (reading 0)")
  | Some c =>
      match choices c with
      | [] => Return None
      | ch :: _ => Return (Some (msg_content (choice_message ch)))
      end
  end.

(** [new Response(text, { status: 200 })]; a body of [undefined] is no
    body. *)
Record HttpResponse : Type := mkHttpResponse {
  body : option string;
  status : Z
}.

(** [handler.GET] from the provider's answer on. *)
Definition GET (chatCompletion : option ChatCompletion) : Outcome HttpResponse :=
  match extractReply chatCompletion with
  | Return text => Return (mkHttpResponse text 200)
  | Throw e => Throw e
  end.

End Completion.

(** ** The loader *)

Module Loader.

(** [Deno.env]: the variables of the process, by name. *)
Definition Environ : Type := string -> option string.

(** [getEnvOrThrow] of [databaseLoader.load]. *)
Definition getEnvOrThrow (environ : Environ) (name : string) : Outcome string :=
  match environ name with
  | None => Throw (Error ("Missing env variable: " ++ name))
  | Some value => Return value
  end.

(** How one statement sent through [sql] fares: it runs and is answered; it
    fails before it runs; or it runs and its answer is lost, so that the
    client sees an error all the same. *)
Inductive Fate : Type :=
| served
| refused (e : PgError)
| lost (e : PgError).

(** The environment of one statement of the loader: the time since the
    previous one, and its fate. *)
Record Step : Type := mkStep {
  waited : N;
  fate : Fate
}.

Definition quiet : Step := mkStep 0 served.

Definition Statement : Type := Step -> Store -> Store * option PgError.

(** [create table if not exists ...] and [create or replace view ...]:
    on a database that has the tables and the view, nothing changes; a
    database without them is one with empty tables. *)
Definition if_not_exists : Statement :=
  fun s db =>
    (advance (waited s) db,
     match fate s with
     | served => None
     | refused e => Some e
     | lost e => Some e
     end).

Definition create_users : Statement := if_not_exists.
Definition create_rooms : Statement := if_not_exists.
Definition create_messages : Statement := if_not_exists.
Definition create_rooms_with_activity : Statement := if_not_exists.

(** The seed statement with its result.  [on conflict(id) do nothing]
    covers the primary key only: a row named [Lobby] under another id makes
    [rooms_name_key] reject the seed. *)
Definition insert_lobby (db : Store) : Store * option PgError :=
  if existsb (has_room_id 0) (rooms db) then (db, None)
  else if existsb (has_room_name "Lobby") (rooms db) then
    (db, Some (duplicate_key "rooms_name_key"))
  else
    (set_rooms db (rooms db ++ [mkRoom 0 (clock db) "Lobby" None]) (rooms_seq db),
     None).

Definition seed : Statement :=
  fun s db =>
    let db' := advance (waited s) db in
    match fate s with
    | served => insert_lobby db'
    | refused e => (db', Some e)
    | lost e => (fst (insert_lobby db'), Some e)
    end.

(** Statements awaited one after the other; the first error ends the
    sequence. *)
Fixpoint sql_all (stmts : list Statement) (steps : list Step) (db : Store)
  : Store * option PgError :=
  match stmts with
  | [] => (db, None)
  | st :: rest =>
      match st (hd quiet steps) db with
      | (db', Some e) => (db', Some e)
      | (db', None) => sql_all rest (tl steps) db'
      end
  end.

(** A value that [!v] takes for missing: [undefined] or the empty string. *)
Definition falsy (v : option string) : bool :=
  match v with
  | None => true
  | Some s => String.eqb s ""
  end.

(** [supabase.createClient(url, key)], as far as it can fail: the client
    library refuses a missing url and a missing key. *)
Definition createClient (supabaseUrl supabaseKey : option string) : Outcome unit :=
  if falsy supabaseUrl then Throw (Error "supabaseUrl is required.")
  else if falsy supabaseKey then Throw (Error "supabaseKey is required.")
  else Return tt.

(** [new Database(client)]: a client that is passed in is taken as it is;
    otherwise one is created from the two variables, which are read without a
    check. *)
Definition constructor (client : option unit) (environ : Environ) : Outcome unit :=
  match client with
  | Some c => Return c
  | None => createClient (environ "SUPABASE_API_URL"%string)
                         (environ "SUPABASE_ANON_KEY"%string)
  end.

(** [databaseLoader.load]: the connection string is read first; then the
    five statements are awaited in order, and the error of a statement
    rejects the promise; then, the connection closed, the promise resolves to
    [new Database()], whose constructor can still throw. *)
Definition load (environ : Environ) (steps : list Step) (db : Store)
  : Store * Outcome unit :=
  match getEnvOrThrow environ "SUPABASE_POSTGRES_URI" with
  | Throw e => (db, Throw e)
  | Return _uri =>
      match sql_all [create_users; create_rooms; create_messages;
                     create_rooms_with_activity; seed] steps db with
      | (db', Some e) => (db', Throw (Error (message e)))
      | (db', None) => (db', constructor None environ)
      end
  end.

End Loader.

(** ** Databases that satisfy the schema *)

(** The constraints of the three [create table] statements, the identity
    sequences being ahead of the ids in use, and [created_at] being the clock
    value at insertion. *)
Record wf (db : Store) : Prop := mkWf {
  users_pkey : NoDup (map u_id (users db));
  users_username_key : NoDup (map u_username (users db));
  rooms_pkey : NoDup (map r_id (rooms db));
  rooms_name_key : NoDup (map r_name (rooms db));
  rooms_identity : Forall (fun r => r_id r <= rooms_seq db) (rooms db);
  messages_pkey : NoDup (map m_id (messages db));
  messages_identity : Forall (fun m => m_id m <= messages_seq db) (messages db);
  messages_from_fkey :
    Forall (fun m => forall id, m_from m = Some id -> In id (map u_id (users db)))
           (messages db);
  messages_room_fkey :
    Forall (fun m => forall id, m_room m = Some id -> In id (map r_id (rooms db)))
           (messages db);
  messages_past : Forall (fun m => m_created_at m <= clock db) (messages db);
  messages_chronological : StronglySorted Z.le (map m_created_at (messages db))
}.

(** An environment whose fault, if any, is not reported under the SQLSTATE
    of a unique violation: that code is the constraint's own. *)
Definition sound (env : Env) : Prop :=
  match fault env with
  | Some e => code e <> unique_violation
  | None => True
  end.

Definition faultless (env : Env) : Prop := fault env = None.

(** The fault an environment may inject: none when [faulty] is off, and
    never one under the code of a unique violation. *)
Definition admits (faulty : bool) (env : Env) : Prop :=
  sound env /\ (faulty = false -> faultless env).

(** Where a call [ensureRoom({name, ...})] can stand, with a bound on the
    number of statements it still has to issue: before the insert; between the
    insert and the re-read, when a row with the name is in the table; rejected
    (only after a fault); resolved with the id of a row that carries the
    name. *)
Inductive call_state (faulty : bool) (db : Store) (n : string)
  : Prog (option Z) -> nat -> Prop :=
| cs_start (pr : string) : call_state faulty db n (ensureRoom n pr) 2
| cs_get : In n (map r_name (rooms db)) -> call_state faulty db n (ensureRoom_get n) 1
| cs_threw (e : JsError) (k : nat) :
    faulty = true -> call_state faulty db n (Raise e) k
| cs_returned (r : RoomRow) (k : nat) :
    In r (rooms db) -> r_name r = n ->
    call_state faulty db n (Ret (Some (r_id r))) k.

(** The invariant of a run: the database satisfies the schema, and call [i]
    stands in a state of its request with at most [2 - used i] statements to
    go. *)
Definition calls_inv (faulty : bool) (reqs : list (string * string))
  (used : nat -> nat) (s : Store * list (Prog (option Z))) : Prop :=
  wf (fst s)
  /\ List.length (snd s) = List.length reqs
  /\ forall i req, nth_error reqs i = Some req ->
       exists p k, nth_error (snd s) i = Some p
                   /\ call_state faulty (fst s) (fst req) p k
                   /\ (k <= 2 - used i)%nat.

(** [t] is the latest of the timestamps [ts]; [None] when there is none. *)
Definition latest (ts : list Z) (t : option Z) : Prop :=
  match t with
  | None => ts = []
  | Some T => In T ts /\ Forall (fun x => x <= T) ts
  end.

(** A database with one user besides the seed room. *)
Definition with_ann : Store :=
  fst (run (insertUser (mkDatabaseUser 1 "ann" "ann.png") "t-ann") [] seeded).

(** One call [insertMessage({text, roomId, userId})] and the environment in
    which its statement is served. *)
Record Send : Type := mkSend {
  s_text : string;
  s_room : Z;
  s_user : Z;
  s_env : Env
}.

Definition send (db : Store) (c : Send) : Store :=
  fst (run (insertMessage (s_text c) (s_room c) (s_user c)) [s_env c] db).

(** The calls one after the other. *)
Definition insertMessages (calls : list Send) (db : Store) : Store :=
  fold_left send calls db.

(** The storage stores the row of a call: the request goes through and the
    two foreign keys find their rows. *)
Definition accepted (db : Store) (c : Send) : bool :=
  match fault (s_env c) with
  | Some _ => false
  | None =>
      existsb (has_user_id (s_user c)) (users db)
      && existsb (has_room_id (s_room c)) (rooms db)
  end.

Definition row_of (c : Send) (m : MessageRow) : Prop :=
  m_message m = s_text c /\ m_from m = Some (s_user c) /\ m_room m = Some (s_room c).

(** [v] shows the message of call [c] with the name and avatar of the user
    that [c] names. *)
Definition sent_as (db : Store) (c : Send) (v : MessageView) : Prop :=
  v_message v = s_text c
  /\ exists u, In u (users db) /\ u_id u = s_user c
               /\ v_from v = mkUserView (u_username u) (u_avatar_url u).

(** The view that [getRoomMessages] builds from a row. *)
Definition shown_as (db : Store) (m : MessageRow) (v : MessageView) : Prop :=
  exists u, embed_from db m = Some u
            /\ v = mkMessageView (m_message m)
                     (mkUserView (e_username u) (e_avatar_url u))
                     (m_created_at m).

(** The values of a Postgres [integer] column. *)
Definition pg_integer (z : Z) : Prop := -2147483648 <= z <= 2147483647.

(** The values of a Postgres [text] column: no NUL character. *)
Definition pg_text (s : string) : Prop :=
  ~ In (Ascii.ascii_of_nat 0) (list_ascii_of_string s).

(** [db'] holds everything that [db] holds: the rooms and the messages of
    [db] are the first rows of [db'], unchanged, the users of [db] are still
    there under their ids, and the clock has not gone back. *)
Definition extends (db db' : Store) : Prop :=
  (exists rs, rooms db' = rooms db ++ rs)
  /\ (exists ms, messages db' = messages db ++ ms)
  /\ (exists ids, map u_id (users db') = map u_id (users db) ++ ids)
  /\ clock db <= clock db'.

(** A method that only reads: whatever its requests meet, the tables and
    sequences are as before when it ends (only the clock has moved, by the time
    of its one request), and a request that fails is rethrown as
    [Error(error.message)]. *)
Definition reads_only {R : Type} (p : Prog R) : Prop :=
  forall envs db,
    fst (run p envs db) = advance (elapsed (hd calm envs)) db
    /\ forall e, fault (hd calm envs) = Some e ->
                 snd (run p envs db) = Throw (Error (message e)).

(** ** Result orders *)

Section ResultOrder.

Context {A : Type}.

Lemma extract_perm (k : nat) (l : list A) (x : A) (r : list A) :
  extract k l = Some (x, r) -> Permutation l (x :: r).
Proof.
  revert k x r. induction l as [|y l IH]; intros k x r H; simpl in H.
  - discriminate.
  - destruct k as [|k].
    + injection H as <- <-. reflexivity.
    + destruct (extract k l) as [[z r']|] eqn:E; [|discriminate].
      injection H as <- <-.
      rewrite (IH _ _ _ E). apply perm_swap.
Qed.

Lemma extract_of_In (x : A) (l : list A) :
  In x l -> exists k r, extract k l = Some (x, r).
Proof.
  induction l as [|y l IH]; intros H; [contradiction|].
  destruct H as [->|H].
  - exists O, l. reflexivity.
  - destruct (IH H) as (k & r & E).
    exists (S k), (y :: r). simpl. now rewrite E.
Qed.

(** Every delivery order is a rearrangement of the rows ... *)
Lemma reorder_perm (ks : list nat) (l : list A) : Permutation (reorder ks l) l.
Proof.
  revert l. induction ks as [|k ks IH]; intros l; simpl; [reflexivity|].
  destruct (extract k l) as [[x r]|] eqn:E; [|reflexivity].
  rewrite (extract_perm _ _ _ _ E). now constructor.
Qed.

(** ... and every rearrangement is a delivery order. *)
Lemma reorder_complete (l l' : list A) :
  Permutation l l' -> exists ks, reorder ks l = l'.
Proof.
  revert l. induction l' as [|x l' IH]; intros l P.
  - apply Permutation_sym, Permutation_nil in P. subst. now exists [].
  - assert (In x l) as Hin
      by (eapply Permutation_in; [apply Permutation_sym, P | now left]).
    destruct (extract_of_In _ _ Hin) as (k & r & E).
    assert (Permutation r l') as Pr.
    { apply Permutation_cons_inv with (a := x).
      rewrite <- (extract_perm _ _ _ _ E). exact P. }
    destruct (IH _ Pr) as (ks & Hks).
    exists (k :: ks). simpl. now rewrite E, Hks.
Qed.

Lemma reorder_nil (ks : list nat) : reorder ks (@nil A) = [].
Proof. destruct ks; reflexivity. Qed.

Lemma reorder_one (ks : list nat) (x : A) : reorder ks [x] = [x].
Proof.
  destruct ks as [|[|k] ks]; simpl; try reflexivity.
  now rewrite reorder_nil.
Qed.

Lemma reorder_In (ks : list nat) (l : list A) (x : A) :
  In x (reorder ks l) <-> In x l.
Proof.
  split; apply Permutation_in; [|symmetry]; apply reorder_perm.
Qed.

End ResultOrder.

(** ** Keys *)

Section Keys.

Context {A K : Type} (key : A -> K) (eqb : K -> K -> bool).
Hypothesis eqb_spec : forall a b, eqb a b = true <-> a = b.

Lemma existsb_key_In (k : K) (l : list A) :
  existsb (fun x => eqb (key x) k) l = true <-> In k (map key l).
Proof.
  rewrite existsb_exists, in_map_iff. split.
  - intros (x & Hx & E). exists x. split; [now apply eqb_spec | exact Hx].
  - intros (x & E & Hx). exists x. split; [exact Hx | now apply eqb_spec].
Qed.

Lemma existsb_key_not_In (k : K) (l : list A) :
  existsb (fun x => eqb (key x) k) l = false <-> ~ In k (map key l).
Proof.
  rewrite <- existsb_key_In. destruct (existsb _ l); split; congruence.
Qed.

Lemma filter_key_absent (k : K) (l : list A) :
  ~ In k (map key l) -> filter (fun x => eqb (key x) k) l = [].
Proof.
  induction l as [|y l IH]; simpl; intros H; [reflexivity|].
  destruct (eqb (key y) k) eqn:E.
  - apply eqb_spec in E. tauto.
  - apply IH. tauto.
Qed.

(** A key column with a unique index selects at most the row itself. *)
Lemma filter_key_unique (r : A) (l : list A) :
  NoDup (map key l) -> In r l ->
  filter (fun x => eqb (key x) (key r)) l = [r].
Proof.
  induction l as [|y l IH]; simpl; intros ND Hin; [contradiction|].
  inversion ND as [|? ? Hy ND']; subst.
  destruct Hin as [->|Hin].
  - replace (eqb (key r) (key r)) with true by (symmetry; now apply eqb_spec).
    f_equal. now apply filter_key_absent.
  - destruct (eqb (key y) (key r)) eqn:E.
    + apply eqb_spec in E. exfalso. apply Hy. rewrite E. now apply in_map.
    + now apply IH.
Qed.

Lemma filter_key_length (k : K) (l : list A) :
  NoDup (map key l) -> (List.length (filter (fun x => eqb (key x) k) l) <= 1)%nat.
Proof.
  intros ND.
  destruct (existsb (fun x => eqb (key x) k) l) eqn:E.
  - apply existsb_exists in E. destruct E as (r & Hr & E).
    apply eqb_spec in E. subst k.
    rewrite filter_key_unique by assumption. simpl. auto.
  - apply existsb_key_not_In in E.
    rewrite filter_key_absent by assumption. simpl. auto.
Qed.

End Keys.

Lemma Zeqb_spec' (a b : Z) : (a =? b) = true <-> a = b.
Proof. apply Z.eqb_eq. Qed.

Lemma Seqb_spec' (a b : string) : String.eqb a b = true <-> a = b.
Proof. apply String.eqb_eq. Qed.

Lemma StronglySorted_snoc (l : list Z) (x : Z) :
  StronglySorted Z.le l -> Forall (fun y => y <= x) l ->
  StronglySorted Z.le (l ++ [x]).
Proof.
  induction 1 as [|y l S IH F]; intros Hx; simpl.
  - repeat constructor.
  - inversion Hx; subst. constructor; [now apply IH|].
    apply Forall_app. split; [exact F | now repeat constructor].
Qed.

(** ** The statements keep the schema's constraints *)

Lemma room_id_In (id : Z) (l : list RoomRow) :
  existsb (has_room_id id) l = true <-> In id (map r_id l).
Proof. exact (existsb_key_In r_id Z.eqb Zeqb_spec' id l). Qed.

Lemma room_id_not_In (id : Z) (l : list RoomRow) :
  existsb (has_room_id id) l = false <-> ~ In id (map r_id l).
Proof. exact (existsb_key_not_In r_id Z.eqb Zeqb_spec' id l). Qed.

Lemma room_name_In (n : string) (l : list RoomRow) :
  existsb (has_room_name n) l = true <-> In n (map r_name l).
Proof. exact (existsb_key_In r_name String.eqb Seqb_spec' n l). Qed.

Lemma room_name_not_In (n : string) (l : list RoomRow) :
  existsb (has_room_name n) l = false <-> ~ In n (map r_name l).
Proof. exact (existsb_key_not_In r_name String.eqb Seqb_spec' n l). Qed.

Lemma user_id_In (id : Z) (l : list UserRow) :
  existsb (has_user_id id) l = true <-> In id (map u_id l).
Proof. exact (existsb_key_In u_id Z.eqb Zeqb_spec' id l). Qed.

Lemma user_id_not_In (id : Z) (l : list UserRow) :
  existsb (has_user_id id) l = false <-> ~ In id (map u_id l).
Proof. exact (existsb_key_not_In u_id Z.eqb Zeqb_spec' id l). Qed.

Lemma message_id_not_In (id : Z) (l : list MessageRow) :
  existsb (has_message_id id) l = false <-> ~ In id (map m_id l).
Proof. exact (existsb_key_not_In m_id Z.eqb Zeqb_spec' id l). Qed.

Lemma NoDup_snoc {A : Type} (l : list A) (x : A) :
  NoDup l -> ~ In x l -> NoDup (l ++ [x]).
Proof.
  intros ND Hx. apply NoDup_app; [exact ND | repeat constructor; auto |].
  intros a Ha [<-|[]]. contradiction.
Qed.

(** The identity sequence is ahead of every id in the table, so the primary
    key never rejects a generated id. *)
Lemma fresh_room_id (db : Store) :
  wf db -> existsb (has_room_id (rooms_seq db + 1)) (rooms db) = false.
Proof.
  intros W. apply room_id_not_In. intros H.
  apply in_map_iff in H. destruct H as (r & E & Hr).
  pose proof (rooms_identity _ W) as F.
  rewrite Forall_forall in F. specialize (F _ Hr). lia.
Qed.

Lemma fresh_message_id (db : Store) :
  wf db -> existsb (has_message_id (messages_seq db + 1)) (messages db) = false.
Proof.
  intros W. apply message_id_not_In. intros H.
  apply in_map_iff in H. destruct H as (r & E & Hr).
  pose proof (messages_identity _ W) as F.
  rewrite Forall_forall in F. specialize (F _ Hr). lia.
Qed.

Lemma wf_empty : wf empty.
Proof. constructor; simpl; constructor. Qed.

Lemma wf_advance (dt : N) (db : Store) : wf db -> wf (advance dt db).
Proof.
  intros W. constructor; simpl; try apply W.
  eapply Forall_impl; [|apply (messages_past _ W)]. simpl. intros. lia.
Qed.

Lemma wf_rooms_append (db : Store) (row : RoomRow) (seq : Z) :
  wf db ->
  ~ In (r_id row) (map r_id (rooms db)) ->
  ~ In (r_name row) (map r_name (rooms db)) ->
  r_id row <= seq -> rooms_seq db <= seq ->
  wf (set_rooms db (rooms db ++ [row]) seq).
Proof.
  intros W Hid Hname Hseq Hmono. constructor; simpl; try apply W.
  - rewrite map_app. apply NoDup_snoc; [apply W | exact Hid].
  - rewrite map_app. apply NoDup_snoc; [apply W | exact Hname].
  - apply Forall_app. split; [|now repeat constructor].
    eapply Forall_impl; [|apply (rooms_identity _ W)]. simpl. intros. lia.
  - eapply Forall_impl; [|apply (messages_room_fkey _ W)]. simpl. intros m H id E.
    rewrite map_app. apply in_or_app. left. now apply H.
Qed.

Lemma wf_rooms_seq (db : Store) (seq : Z) :
  wf db -> rooms_seq db <= seq -> wf (set_rooms db (rooms db) seq).
Proof.
  intros W Hmono. constructor; simpl; try apply W.
  eapply Forall_impl; [|apply (rooms_identity _ W)]. simpl. intros. lia.
Qed.

Lemma wf_rooms_insert (n : string) (p : option string) (db : Store) :
  wf db -> wf (fst (rooms_insert n p db)).
Proof.
  intros W. unfold rooms_insert.
  rewrite (fresh_room_id _ W).
  destruct (existsb (has_room_name n) (rooms db)) eqn:En; simpl.
  - apply wf_rooms_seq; [exact W | lia].
  - apply wf_rooms_append; simpl; try lia; try exact W.
    + apply room_id_not_In, fresh_room_id, W.
    + now apply room_name_not_In.
Qed.

Lemma wf_seeded : wf seeded.
Proof.
  constructor; simpl; repeat constructor; simpl; try tauto; try lia.
Qed.

Lemma wf_messages_insert (text : string) (room from : Z) (db : Store) :
  wf db -> wf (fst (messages_insert text room from db)).
Proof.
  intros W. unfold messages_insert.
  rewrite (fresh_message_id _ W).
  assert (wf (set_messages db (messages db) (messages_seq db + 1))) as Wseq.
  { constructor; simpl; try apply W.
    eapply Forall_impl; [|apply (messages_identity _ W)]. simpl. intros. lia. }
  destruct (existsb (has_user_id from) (users db)) eqn:Eu; simpl; [|exact Wseq].
  destruct (existsb (has_room_id room) (rooms db)) eqn:Er; simpl; [|exact Wseq].
  constructor; simpl; try apply W.
  - rewrite map_app. apply NoDup_snoc; [apply W|].
    apply message_id_not_In, fresh_message_id, W.
  - apply Forall_app. split; [|repeat constructor; simpl; lia].
    eapply Forall_impl; [|apply (messages_identity _ W)]. simpl. intros. lia.
  - apply Forall_app. split; [apply W|].
    repeat constructor. simpl. intros id [= <-]. now apply user_id_In.
  - apply Forall_app. split; [apply W|].
    repeat constructor. simpl. intros id [= <-]. now apply room_id_In.
  - apply Forall_app. split; [apply W|]. repeat constructor. simpl. lia.
  - rewrite map_app. apply StronglySorted_snoc; [apply W|].
    apply Forall_map. apply W.
Qed.

Lemma overwrite_id (new u : UserRow) : u_id (overwrite new u) = u_id u.
Proof. unfold overwrite. now destruct (has_user_id (u_id new) u). Qed.

Lemma map_overwrite_ids (new : UserRow) (l : list UserRow) :
  map u_id (map (overwrite new) l) = map u_id l.
Proof.
  rewrite map_map. apply map_ext. intros. apply overwrite_id.
Qed.

Lemma map_overwrite_absent (new : UserRow) (l : list UserRow) :
  ~ In (u_id new) (map u_id l) -> map (overwrite new) l = l.
Proof.
  induction l as [|u l IH]; simpl; intros H; [reflexivity|].
  rewrite IH by tauto. f_equal.
  unfold overwrite, has_user_id.
  destruct (Z.eqb_spec (u_id u) (u_id new)); [|reflexivity].
  exfalso. apply H. now left.
Qed.

Lemma map_overwrite_usernames (new : UserRow) (l : list UserRow) :
  NoDup (map u_id l) -> NoDup (map u_username l) ->
  (forall u, In u l -> u_username u = u_username new -> u_id u = u_id new) ->
  NoDup (map u_username (map (overwrite new) l)).
Proof.
  induction l as [|u l IH]; simpl; intros NDi NDn Hother; [constructor|].
  inversion NDi as [|? ? Hi NDi']; inversion NDn as [|? ? Hn NDn']; subst.
  unfold overwrite at 1, has_user_id.
  destruct (Z.eqb_spec (u_id u) (u_id new)) as [E|E].
  - rewrite map_overwrite_absent by (rewrite <- E; exact Hi).
    simpl. constructor; [|exact NDn'].
    intros H. apply in_map_iff in H. destruct H as (v & Ev & Hv).
    apply Hi. rewrite E, <- (Hother v); [now apply in_map | now right | exact Ev].
  - constructor; [|apply IH; auto].
    intros H. apply in_map_iff in H. destruct H as (v' & Ev & Hv).
    apply in_map_iff in Hv. destruct Hv as (v & <- & Hv).
    unfold overwrite, has_user_id in Ev.
    destruct (Z.eqb_spec (u_id v) (u_id new)) as [E'|E']; simpl in Ev.
    + apply E. apply Hother; [now left | now symmetry].
    + apply Hn. rewrite <- Ev. now apply in_map.
Qed.

Lemma upsert_guard (id : Z) (n : string) (l : list UserRow) :
  existsb (fun u => has_username n u && negb (has_user_id id u)) l = false ->
  forall u, In u l -> u_username u = n -> u_id u = id.
Proof.
  intros H u Hu En.
  destruct (Z.eqb_spec (u_id u) id) as [E|E]; [exact E|].
  assert (existsb (fun u => has_username n u && negb (has_user_id id u)) l = true)
    as T; [|congruence].
  apply existsb_exists. exists u. split; [exact Hu|].
  unfold has_username, has_user_id.
  apply andb_true_iff. split; [now apply String.eqb_eq|].
  apply negb_true_iff. now apply Z.eqb_neq.
Qed.

Lemma wf_users_upsert (id : Z) (n a t : string) (db : Store) :
  wf db -> wf (fst (users_upsert id n a t db)).
Proof.
  intros W. unfold users_upsert.
  destruct (existsb _ (users db)) eqn:Eg; simpl; [exact W|].
  pose proof (upsert_guard _ _ _ Eg) as G.
  destruct (existsb (has_user_id id) (users db)) eqn:Ei; simpl.
  - constructor; simpl; try apply W.
    + rewrite map_overwrite_ids. apply W.
    + apply map_overwrite_usernames; [apply W | apply W | exact G].
    + rewrite map_overwrite_ids. apply W.
  - apply user_id_not_In in Ei.
    constructor; simpl; try apply W.
    + rewrite map_app. apply NoDup_snoc; [apply W | exact Ei].
    + rewrite map_app. apply NoDup_snoc; [apply W|]. simpl.
      intros H. apply in_map_iff in H. destruct H as (u & En & Hu).
      apply Ei. rewrite <- (G u Hu En). now apply in_map.
    + eapply Forall_impl; [|apply (messages_from_fkey _ W)]. simpl.
      intros m H k E. rewrite map_app. apply in_or_app. left. now apply H.
Qed.

Lemma wf_statement {A : Type} (q : Query A) (ps : list nat) (db : Store) :
  wf db -> wf (fst (statement q ps db)).
Proof.
  intros W. destruct q; simpl; try exact W.
  - now apply wf_users_upsert.
  - now apply wf_rooms_insert.
  - now apply wf_messages_insert.
Qed.

Lemma wf_answer {A : Type} (env : Env) (db : Store) (q : Query A) :
  wf db -> wf (fst (answer env db q)).
Proof.
  intros W. unfold answer.
  destruct (fault env); simpl; [now apply wf_advance|].
  now apply wf_statement, wf_advance.
Qed.

(** Every method leaves a database that satisfies the schema. *)
Lemma wf_run {R : Type} (p : Prog R) (envs : list Env) (db : Store) :
  wf db -> wf (fst (run p envs db)).
Proof.
  revert envs db. induction p as [r|e|A q k IH]; intros envs db W; simpl;
    try exact W.
  pose proof (wf_answer (hd calm envs) db q W) as W'.
  destruct (answer (hd calm envs) db q) as [db' r]. now apply IH.
Qed.

(** ** Lookups by a unique column *)

Lemma rooms_by_id_absent (ps : list nat) (id : Z) (db : Store) :
  ~ In id (map r_id (rooms db)) -> rooms_by_id ps id db = [].
Proof.
  intros H. unfold rooms_by_id.
  change (filter (has_room_id id) (rooms db))
    with (filter (fun x => Z.eqb (r_id x) id) (rooms db)).
  rewrite (filter_key_absent r_id Z.eqb Zeqb_spec') by exact H.
  apply reorder_nil.
Qed.

Lemma rooms_by_id_present (ps : list nat) (r : RoomRow) (db : Store) :
  wf db -> In r (rooms db) -> rooms_by_id ps (r_id r) db = [r].
Proof.
  intros W H. unfold rooms_by_id.
  change (filter (has_room_id (r_id r)) (rooms db))
    with (filter (fun x => Z.eqb (r_id x) (r_id r)) (rooms db)).
  rewrite (filter_key_unique r_id Z.eqb Zeqb_spec') by (apply W || exact H).
  apply reorder_one.
Qed.

Lemma rooms_by_name_absent (ps : list nat) (n : string) (db : Store) :
  ~ In n (map r_name (rooms db)) -> rooms_by_name ps n db = [].
Proof.
  intros H. unfold rooms_by_name.
  change (filter (has_room_name n) (rooms db))
    with (filter (fun x => String.eqb (r_name x) n) (rooms db)).
  rewrite (filter_key_absent r_name String.eqb Seqb_spec') by exact H.
  apply reorder_nil.
Qed.

Lemma rooms_by_name_present (ps : list nat) (r : RoomRow) (db : Store) :
  wf db -> In r (rooms db) -> rooms_by_name ps (r_name r) db = [r].
Proof.
  intros W H. unfold rooms_by_name.
  change (filter (has_room_name (r_name r)) (rooms db))
    with (filter (fun x => String.eqb (r_name x) (r_name r)) (rooms db)).
  rewrite (filter_key_unique r_name String.eqb Seqb_spec') by (apply W || exact H).
  apply reorder_one.
Qed.

(** ** Room lookups by id *)

(** What the three lookups throw when the request itself went through and
    no row has the id: [getRoomName] dies on [data[0].name], the two
    [.single()] lookups rethrow the client's error. *)
Lemma room_lookups_absent_errors (db : Store) (roomId : Z) (dt : N) (ps : list nat)
  (envs : list Env) :
  ~ In roomId (map r_id (rooms db)) ->
  let envs' := mkEnv None dt ps :: envs in
  snd (run (getRoomName roomId) envs' db)
    = Throw (TypeError "Cannot read properties of undefined (reading name)")
  /\ snd (run (getRoomNamePrompt roomId) envs' db)
    = Throw (Error (message not_single))
  /\ snd (run (getRoomPrompt roomId) envs' db)
    = Throw (Error (message not_single)).
Proof.
  intros H. simpl. unfold answer. simpl.
  rewrite (rooms_by_id_absent ps roomId (advance dt db)) by exact H.
  repeat split.
Qed.

(** C4. A lookup of a room id that no row of [rooms] carries fails (the
    promise rejects) in each of [getRoomName], [getRoomPrompt] and
    [getRoomNamePrompt]; for the id of a stored room, each of them returns
    the stored name, the stored prompt (possibly absent), or both. *)
Theorem room_lookups (db : Store) (roomId : Z) :
  wf db ->
  (~ In roomId (map r_id (rooms db)) ->
   forall envs,
     threw (snd (run (getRoomName roomId) envs db)) = true
     /\ threw (snd (run (getRoomPrompt roomId) envs db)) = true
     /\ threw (snd (run (getRoomNamePrompt roomId) envs db)) = true)
  /\ (forall r, In r (rooms db) -> r_id r = roomId ->
      forall envs, faultless (hd calm envs) ->
        snd (run (getRoomName roomId) envs db) = Return (r_name r)
        /\ snd (run (getRoomPrompt roomId) envs db) = Return (r_prompt r)
        /\ snd (run (getRoomNamePrompt roomId) envs db)
           = Return (mkNamePrompt (r_name r) (r_prompt r))).
Proof.
  intros W. split.
  - intros H envs. simpl. unfold answer.
    destruct (fault (hd calm envs)) as [e|]; simpl; [repeat split|].
    rewrite (rooms_by_id_absent _ roomId (advance _ db)) by exact H.
    repeat split.
  - intros r Hr <- envs F. simpl. unfold answer. rewrite F. simpl.
    rewrite (rooms_by_id_present _ r (advance _ db))
      by (now apply wf_advance || exact Hr).
    repeat split.
Qed.

(** The lookups of a missing id and of the seed room on the seeded database. *)
Lemma room_lookups_witness :
  (threw (snd (run (getRoomName 7) [] seeded)) = true
   /\ threw (snd (run (getRoomPrompt 7) [] seeded)) = true
   /\ threw (snd (run (getRoomNamePrompt 7) [] seeded)) = true)
  /\ (snd (run (getRoomName 0) [] seeded) = Return "Lobby"%string
      /\ snd (run (getRoomPrompt 0) [] seeded) = Return None
      /\ snd (run (getRoomNamePrompt 0) [] seeded)
         = Return (mkNamePrompt "Lobby" None)).
Proof.
  destruct (room_lookups seeded 7 wf_seeded) as [Habsent _].
  destruct (room_lookups seeded 0 wf_seeded) as [_ Hpresent].
  split.
  - apply Habsent. simpl. intros [H|[]]. discriminate.
  - apply (Hpresent (mkRoom 0 0 "Lobby" None)); [now left | reflexivity | reflexivity].
Defined.

(** ** [ensureRoom], one call at a time *)

Lemma room_with_name (n : string) (db : Store) :
  In n (map r_name (rooms db)) -> exists r, In r (rooms db) /\ r_name r = n.
Proof.
  intros H. apply in_map_iff in H. destruct H as (r & E & Hr). now exists r.
Qed.

Lemma only_room_with_name (r : RoomRow) (db : Store) :
  wf db -> In r (rooms db) -> filter (has_room_name (r_name r)) (rooms db) = [r].
Proof.
  intros W H.
  exact (filter_key_unique r_name String.eqb Seqb_spec' r (rooms db)
           (rooms_name_key _ W) H).
Qed.

(** On a database that satisfies the schema the insert has two outcomes:
    the name is taken and [rooms_name_key] rejects the row, or the row is
    stored. *)
Lemma rooms_insert_cases (n : string) (p : option string) (db : Store) :
  wf db ->
  (In n (map r_name (rooms db))
   /\ rooms_insert n p db
      = (set_rooms db (rooms db) (rooms_seq db + 1),
         failed (duplicate_key "rooms_name_key")))
  \/ (~ In n (map r_name (rooms db))
      /\ rooms_insert n p db
         = (set_rooms db (rooms db ++ [mkRoom (rooms_seq db + 1) (clock db) n p])
                      (rooms_seq db + 1),
            ok [mkRoom (rooms_seq db + 1) (clock db) n p])).
Proof.
  intros W. unfold rooms_insert. rewrite (fresh_room_id _ W).
  destruct (existsb (has_room_name n) (rooms db)) eqn:E.
  - left. split; [now apply room_name_In | reflexivity].
  - right. split; [now apply room_name_not_In | reflexivity].
Qed.

Lemma rooms_insert_grows (n : string) (p : option string) (db : Store) :
  incl (rooms db) (rooms (fst (rooms_insert n p db))).
Proof.
  unfold rooms_insert.
  destruct (existsb (has_room_id _) _); simpl; [apply incl_refl|].
  destruct (existsb (has_room_name n) _); simpl; [apply incl_refl|].
  apply incl_appl, incl_refl.
Qed.

(** After the insert statement of [ensureRoom] ran, a row with the name is
    in the table, whichever of the two outcomes it had. *)
Lemma rooms_insert_ensures (n : string) (p : option string) (db : Store) :
  wf db -> In n (map r_name (rooms (fst (rooms_insert n p db)))).
Proof.
  intros W. destruct (rooms_insert_cases n p db W) as [[H ->]|[H ->]]; simpl.
  - exact H.
  - rewrite map_app. apply in_or_app. right. now left.
Qed.

(** The re-read finds the one row that carries the name. *)
Lemma ensureRoom_get_finds (r : RoomRow) (env : Env) (envs : list Env) (db : Store) :
  wf db -> In r (rooms db) -> faultless env ->
  run (ensureRoom_get (r_name r)) (env :: envs) db
  = (advance (elapsed env) db, Return (Some (r_id r))).
Proof.
  intros W H F. simpl. unfold answer. rewrite F. simpl.
  rewrite (rooms_by_name_present _ r (advance _ db))
    by (now apply wf_advance || exact H).
  reflexivity.
Qed.

(** C6. In [ensureRoom] the failure of the insert that the unique index on
    [name] raises is suppressed: the call goes on to the re-read by name (and
    returns the id of the existing row when the re-read is served).  Every
    other failure of the insert is thrown to the caller as
    [Error(error.message)]. *)
Theorem ensureRoom_suppresses_name_conflict_only
  (db : Store) (name prompt : string) (envs : list Env) :
  wf db ->
  let first := hd calm envs in
  let inserted := answer first db (RoomsInsert name (Some prompt)) in
  (faultless first -> In name (map r_name (rooms db)) ->
   error (snd inserted) = Some (duplicate_key "rooms_name_key")
   /\ run (ensureRoom name prompt) envs db
      = run (ensureRoom_get name) (tl envs) (fst inserted)
   /\ (faultless (hd calm (tl envs)) ->
       exists r, In r (rooms db) /\ r_name r = name
                 /\ snd (run (ensureRoom name prompt) envs db)
                    = Return (Some (r_id r))))
  /\ (sound first ->
      forall e, error (snd inserted) = Some e ->
                e <> duplicate_key "rooms_name_key" ->
                run (ensureRoom name prompt) envs db
                = (fst inserted, Throw (Error (message e)))).
Proof.
  intros W first inserted.
  assert (wf (advance (elapsed first) db)) as W' by now apply wf_advance.
  split.
  - intros F Hname.
    assert (inserted
            = (set_rooms (advance (elapsed first) db) (rooms db) (rooms_seq db + 1),
               failed (duplicate_key "rooms_name_key"))) as Ei.
    { unfold inserted, answer. rewrite F. simpl.
      destruct (rooms_insert_cases name (Some prompt) _ W') as [[_ ->]|[H _]];
        [reflexivity | contradiction]. }
    assert (run (ensureRoom name prompt) envs db
            = run (ensureRoom_get name) (tl envs) (fst inserted)) as Er.
    { simpl. fold first. fold inserted. rewrite Ei. reflexivity. }
    split; [now rewrite Ei|]. split; [exact Er|].
    intros F2. destruct (room_with_name _ _ Hname) as (r & Hr & En).
    exists r. split; [exact Hr|]. split; [exact En|].
    rewrite Er, Ei. simpl fst. subst name.
    pose proof (wf_rooms_seq (advance (elapsed first) db) (rooms_seq db + 1) W')
      as W2. simpl in W2. specialize (W2 ltac:(lia)).
    destruct (tl envs) as [|env2 envs2].
    + change (run (ensureRoom_get (r_name r)) [])
        with (run (ensureRoom_get (r_name r)) [calm]).
      rewrite ensureRoom_get_finds; [reflexivity | exact W2 | exact Hr | reflexivity].
    + rewrite ensureRoom_get_finds; [reflexivity | exact W2 | exact Hr | exact F2].
  - intros S e Ee Hne. simpl. fold first. fold inserted.
    unfold inserted, answer in Ee |- *. unfold sound in S.
    destruct (fault first) as [f|].
    + simpl in Ee. injection Ee as ->. simpl.
      destruct (String.eqb_spec (code e) "23505") as [E|E]; [|reflexivity].
      contradiction.
    + unfold statement in Ee |- *.
      destruct (rooms_insert_cases name (Some prompt) _ W') as [[_ E]|[_ E]];
        rewrite E in Ee |- *; simpl in Ee.
      * injection Ee as <-. contradiction.
      * discriminate.
Qed.

(** A second [Lobby] on the seeded database, and an insert that fails in
    transit. *)
Lemma ensureRoom_suppresses_name_conflict_only_witness :
  (error (snd (answer calm seeded (RoomsInsert "Lobby" (Some "p"%string))))
   = Some (duplicate_key "rooms_name_key")
   /\ snd (run (ensureRoom "Lobby" "p") [] seeded) = Return (Some 0))
  /\ run (ensureRoom "Hall" "p") [mkEnv (Some (mkPgError "fetch failed" "")) 0 []] seeded
     = (seeded, Throw (Error "fetch failed")).
Proof.
  split.
  - destruct (ensureRoom_suppresses_name_conflict_only seeded "Lobby" "p" [] wf_seeded)
      as [Hdup _].
    destruct Hdup as (He & _ & Hret);
      [reflexivity | simpl; now left |].
    split; [exact He|].
    destruct (Hret eq_refl) as (r & Hr & En & ->).
    simpl in Hr. destruct Hr as [<-|[]]. reflexivity.
  - destruct (ensureRoom_suppresses_name_conflict_only seeded "Hall" "p"
                [mkEnv (Some (mkPgError "fetch failed" "")) 0 []] wf_seeded)
      as [_ Hother].
    apply (Hother (fun H => ltac:(discriminate H)) (mkPgError "fetch failed" ""));
      [reflexivity | discriminate].
Defined.

(** ** [ensureRoom], several calls at once *)

Import Sched.

Lemma update_length {A : Type} (i : nat) (x : A) (l : list A) :
  List.length (update i x l) = List.length l.
Proof.
  revert i. induction l as [|y l IH]; intros [|i]; simpl; auto.
Qed.

Lemma nth_error_update_same {A : Type} (i : nat) (x y : A) (l : list A) :
  nth_error l i = Some y -> nth_error (update i x l) i = Some x.
Proof.
  revert i. induction l as [|z l IH]; intros [|i] H; simpl in *;
    try discriminate; auto.
Qed.

Lemma nth_error_update_other {A : Type} (i j : nat) (x : A) (l : list A) :
  i <> j -> nth_error (update i x l) j = nth_error l j.
Proof.
  revert i j. induction l as [|z l IH]; intros [|i] [|j] H; simpl;
    try reflexivity; try congruence.
  apply IH. congruence.
Qed.

Lemma call_state_mono (faulty : bool) (db db' : Store) (n : string)
  (p : Prog (option Z)) (k : nat) :
  incl (rooms db) (rooms db') ->
  call_state faulty db n p k -> call_state faulty db' n p k.
Proof.
  intros I H. destruct H.
  - constructor.
  - constructor. eapply incl_map; eauto.
  - now constructor.
  - constructor; auto.
Qed.

Lemma answer_rooms_grow {A : Type} (env : Env) (db : Store) (q : Query A) :
  incl (rooms db) (rooms (fst (answer env db q))).
Proof.
  unfold answer. destruct (fault env); simpl; [apply incl_refl|].
  destruct q; simpl; try apply incl_refl.
  - unfold users_upsert. repeat (destruct (existsb _ _); simpl); apply incl_refl.
  - apply (rooms_insert_grows _ _ (advance (elapsed env) db)).
  - unfold messages_insert. repeat (destruct (existsb _ _); simpl); apply incl_refl.
Qed.

Lemma resume_call (faulty : bool) (env : Env) (db : Store) (n : string)
  (p : Prog (option Z)) (k : nat) :
  wf db -> admits faulty env -> call_state faulty db n p k ->
  wf (fst (resume env db p))
  /\ incl (rooms db) (rooms (fst (resume env db p)))
  /\ call_state faulty (fst (resume env db p)) n (snd (resume env db p)) (pred k).
Proof.
  intros W [S F] H.
  assert (wf (advance (elapsed env) db)) as W' by now apply wf_advance.
  assert (forall f, fault env = Some f -> faulty = true) as Hfaulty.
  { intros f Ef. destruct faulty; [reflexivity|].
    specialize (F eq_refl). unfold faultless in F. congruence. }
  destruct H as [pr|Hn|e k Hf|r k Hr En].
  - (* the insert *)
    simpl. pose proof (wf_answer env db (RoomsInsert n (Some pr)) W) as Wa.
    pose proof (answer_rooms_grow env db (RoomsInsert n (Some pr))) as Ia.
    unfold answer in *. unfold sound in S.
    destruct (fault env) as [f|] eqn:Ef.
    + simpl in *. split; [exact Wa|]. split; [exact Ia|].
      destruct (String.eqb_spec (code f) "23505") as [E|E]; [contradiction|].
      simpl. constructor. now apply (Hfaulty f).
    + unfold statement in *.
      pose proof (rooms_insert_ensures n (Some pr) _ W') as En.
      destruct (rooms_insert_cases n (Some pr) _ W') as [[_ E]|[_ E]];
        rewrite E in *; simpl in *;
        (split; [exact Wa|]; split; [exact Ia|]; now constructor).
  - (* the re-read *)
    simpl. unfold answer. destruct (fault env) as [f|] eqn:Ef.
    + simpl. split; [exact W'|]. split; [apply incl_refl|].
      constructor. now apply (Hfaulty f).
    + simpl. split; [exact W'|]. split; [apply incl_refl|].
      destruct (room_with_name _ _ Hn) as (r & Hr & <-).
      rewrite (rooms_by_name_present _ r (advance _ db)) by assumption.
      simpl. now constructor.
  - simpl. split; [exact W|]. split; [apply incl_refl|]. now constructor.
  - simpl. split; [exact W|]. split; [apply incl_refl|]. now constructor.
Qed.

Lemma calls_inv_start (faulty : bool) (reqs : list (string * string)) (db : Store) :
  wf db -> calls_inv faulty reqs (fun _ => O) (db, ensureRoom_calls reqs).
Proof.
  intros W. split; [exact W|]. split; [apply length_map|].
  intros i req H. exists (ensureRoom (fst req) (snd req)), 2%nat.
  split; [|split; [constructor | simpl; lia]].
  unfold ensureRoom_calls. simpl. now rewrite nth_error_map, H.
Qed.

Lemma calls_inv_step (faulty : bool) (reqs : list (string * string))
  (used : nat -> nat) (d : Decision) (s : Store * list (Prog (option Z))) :
  admits faulty (snd d) -> calls_inv faulty reqs used s ->
  calls_inv faulty reqs
    (fun i => (used i + if Nat.eq_dec (fst d) i then 1 else 0)%nat) (step d s).
Proof.
  intros Ad (W & L & H). destruct s as [db ps], d as [j env].
  cbn [fst snd] in *. unfold step. cbn [fst snd].
  destruct (nth_error ps j) as [p|] eqn:Ej.
  - assert (exists req, nth_error reqs j = Some req) as (req & Ereq).
    { destruct (nth_error reqs j) eqn:E; [eauto|].
      apply nth_error_None in E. rewrite <- L in E.
      apply nth_error_None in E. congruence. }
    destruct (H _ _ Ereq) as (p0 & k & Ep & Cs & Hk).
    rewrite Ej in Ep. injection Ep as <-.
    destruct (resume_call faulty env db (fst req) p k W Ad Cs) as (W' & I & Cs').
    destruct (resume env db p) as [db' p']. unfold calls_inv. cbn [fst snd] in *.
    split; [exact W'|]. split; [now rewrite update_length|].
    intros i req' Ei.
    destruct (Nat.eq_dec j i) as [<-|Hne].
    + rewrite Ereq in Ei. injection Ei as <-.
      exists p', (pred k). split; [eapply nth_error_update_same; eauto|].
      split; [exact Cs' | cbv iota; lia].
    + destruct (H _ _ Ei) as (q & k' & Eq & Cq & Hk').
      exists q, k'. rewrite nth_error_update_other by exact Hne.
      split; [exact Eq|]. split; [eapply call_state_mono; eauto | cbv iota; lia].
  - split; [exact W|]. split; [exact L|].
    intros i req Ei. destruct (H _ _ Ei) as (q & k' & Eq & Cq & Hk').
    exists q, k'. split; [exact Eq|]. split; [exact Cq|].
    destruct (Nat.eq_dec j i) as [<-|Hne]; cbv iota; [congruence | lia].
Qed.

Lemma calls_inv_interleave (faulty : bool) (reqs : list (string * string))
  (sched : list Decision) :
  Forall (fun d => admits faulty (snd d)) sched ->
  forall used s,
    calls_inv faulty reqs used s ->
    calls_inv faulty reqs (fun i => (used i + resumes sched i)%nat)
              (interleave sched s).
Proof.
  induction 1 as [|d sched Ad _ IH]; intros used s Inv; simpl.
  - destruct Inv as (W & L & H). split; [exact W|]. split; [exact L|].
    intros i req Ei. destruct (H _ _ Ei) as (q & k & Eq & Cq & Hk).
    exists q, k. split; [exact Eq|]. split; [exact Cq|].
    unfold resumes. cbn [map count_occ]. lia.
  - pose proof (IH _ _ (calls_inv_step _ _ _ _ _ Ad Inv)) as (W & L & H).
    split; [exact W|]. split; [exact L|].
    intros i req Ei. destruct (H _ _ Ei) as (q & k & Eq & Cq & Hk).
    exists q, k. split; [exact Eq|]. split; [exact Cq|].
    unfold resumes in *. cbn [map count_occ].
    destruct (Nat.eq_dec (fst d) i); cbv iota in Hk; lia.
Qed.

Lemma faultless_admits (faulty : bool) (env : Env) : faultless env -> admits faulty env.
Proof.
  intros F. split; [|auto]. unfold sound. now rewrite F.
Qed.

Lemma call_state_returned (faulty : bool) (db : Store) (n : string)
  (v : option Z) (k : nat) :
  call_state faulty db n (Ret v) k ->
  exists r, v = Some (r_id r) /\ In r (rooms db) /\ r_name r = n.
Proof.
  intros H. inversion H; subst; try discriminate. eauto.
Qed.

Lemma call_state_done (db : Store) (n : string) (p : Prog (option Z)) :
  call_state false db n p 0 ->
  exists r, p = Ret (Some (r_id r)) /\ In r (rooms db) /\ r_name r = n.
Proof.
  intros H. inversion H; subst; try discriminate. eauto.
Qed.

(** C1. Any number of calls [ensureRoom({name, prompt})], interleaved in
    any way statement by statement, converge on one room per name: the table
    never holds more than one row for a name, every call that returns for a
    name returns the id of that one row (so all of them the same id), and
    when no request fails on its way every call that was served its two
    statements has returned that id. *)
Theorem ensureRoom_converges
  (db0 : Store) (reqs : list (string * string)) (sched : list Decision) :
  wf db0 ->
  Forall (fun d => sound (snd d)) sched ->
  let s := interleave sched (db0, ensureRoom_calls reqs) in
  (forall n, (List.length (filter (has_room_name n) (rooms (fst s))) <= 1)%nat)
  /\ (forall i j n pi pj vi vj,
        nth_error reqs i = Some (n, pi) -> nth_error reqs j = Some (n, pj) ->
        nth_error (snd s) i = Some (Ret vi) -> nth_error (snd s) j = Some (Ret vj) ->
        vi = vj
        /\ exists r, vi = Some (r_id r)
                     /\ filter (has_room_name n) (rooms (fst s)) = [r])
  /\ (Forall (fun d => faultless (snd d)) sched ->
      forall i req, nth_error reqs i = Some req -> (2 <= resumes sched i)%nat ->
        exists r, nth_error (snd s) i = Some (Ret (Some (r_id r)))
                  /\ filter (has_room_name (fst req)) (rooms (fst s)) = [r]).
Proof.
  intros W S s.
  assert (calls_inv true reqs (fun i => (0 + resumes sched i)%nat) s) as (Ws & _ & H).
  { apply calls_inv_interleave; [|now apply calls_inv_start].
    eapply Forall_impl; [|exact S]. intros d Sd. split; [exact Sd | discriminate]. }
  split; [|split].
  - intros n.
    exact (filter_key_length r_name String.eqb Seqb_spec' n _ (rooms_name_key _ Ws)).
  - intros i j n pi pj vi vj Ri Rj Pi Pj.
    destruct (H _ _ Ri) as (p & k & Ep & Cs & _).
    rewrite Pi in Ep. injection Ep as <-.
    destruct (call_state_returned _ _ _ _ _ Cs) as (r & -> & Hr & En).
    destruct (H _ _ Rj) as (p' & k' & Ep' & Cs' & _).
    rewrite Pj in Ep'. injection Ep' as <-.
    destruct (call_state_returned _ _ _ _ _ Cs') as (r' & -> & Hr' & En').
    simpl in En, En'.
    pose proof (only_room_with_name r _ Ws Hr) as Fr.
    pose proof (only_room_with_name r' _ Ws Hr') as Fr'.
    rewrite En in Fr. rewrite En' in Fr'.
    split; [congruence|]. exists r. split; [reflexivity | exact Fr].
  - intros F i req Ri Hi.
    assert (calls_inv false reqs (fun i => (0 + resumes sched i)%nat) s)
      as (_ & _ & H').
    { apply calls_inv_interleave; [|now apply calls_inv_start].
      eapply Forall_impl; [|exact F]. intros d. apply faultless_admits. }
    destruct (H' _ _ Ri) as (p & k & Ep & Cs & Hk).
    assert (k = O) as -> by lia.
    destruct (call_state_done _ _ _ Cs) as (r & -> & Hr & En).
    exists r. split; [exact Ep|]. rewrite <- En.
    now apply only_room_with_name.
Qed.

(** Two calls for the same new name, the second served between the two
    statements of the first. *)
Lemma ensureRoom_converges_witness :
  let reqs := [("Den", "a"); ("Den", "b")]%string in
  let sched := [(0, calm); (1, calm); (1, calm); (0, calm)]%nat in
  let s := interleave sched (seeded, ensureRoom_calls reqs) in
  (forall n, (List.length (filter (has_room_name n) (rooms (fst s))) <= 1)%nat)
  /\ exists r, nth_error (snd s) 0 = Some (Ret (Some (r_id r)))
               /\ nth_error (snd s) 1 = Some (Ret (Some (r_id r))).
Proof.
  intros reqs sched s.
  assert (Forall (fun d : Decision => faultless (snd d)) sched) as F
    by (repeat constructor).
  assert (Forall (fun d : Decision => sound (snd d)) sched) as S
    by (repeat constructor).
  destruct (ensureRoom_converges seeded reqs sched wf_seeded S) as (H1 & _ & H3).
  split; [exact H1|].
  destruct (H3 F 0%nat _ eq_refl) as (r & E0 & F0); [vm_compute; lia|].
  destruct (H3 F 1%nat _ eq_refl) as (r' & E1 & F1); [vm_compute; lia|].
  exists r. split; [exact E0|].
  simpl fst in F0, F1. rewrite F0 in F1. injection F1 as <-. exact E1.
Defined.

(** ** [insertMessage] *)

Lemma wf_with_ann : wf with_ann.
Proof. apply wf_run, wf_seeded. Qed.

(** [insertMessage] resolves whatever the storage answered. *)
Lemma insertMessage_returns (text : string) (roomId userId : Z) (envs : list Env)
  (db : Store) :
  run (insertMessage text roomId userId) envs db
  = (fst (answer (hd calm envs) db (MessagesInsert text roomId userId)), Return tt).
Proof.
  simpl. now destruct (answer (hd calm envs) db (MessagesInsert text roomId userId)).
Qed.

(** When the room and the user exist and the request goes through, the row
    is appended with the next id of the sequence and the current time. *)
Lemma insertMessage_appends (text : string) (roomId userId : Z) (env : Env)
  (envs : list Env) (db : Store) :
  wf db -> faultless env ->
  In roomId (map r_id (rooms db)) -> In userId (map u_id (users db)) ->
  run (insertMessage text roomId userId) (env :: envs) db
  = (set_messages (advance (elapsed env) db)
       (messages db
        ++ [mkMessage (messages_seq db + 1) (clock db + Z.of_N (elapsed env))
                      text (Some userId) (Some roomId)])
       (messages_seq db + 1),
     Return tt).
Proof.
  intros W F Hr Hu. rewrite insertMessage_returns. f_equal.
  unfold answer. simpl. rewrite F. simpl. unfold messages_insert.
  rewrite (fresh_message_id _ (wf_advance _ _ W)). simpl.
  apply user_id_In in Hu. apply room_id_In in Hr. now rewrite Hu, Hr.
Qed.

(** C2. [insertMessage] drops the client's answer: on
    [insertMessage({text: "hi", roomId: 999, userId: 1})], with user 1 stored
    and no room 999, the storage rejects the row for the foreign key on
    [room], no message is stored, and the call still returns normally. *)
Theorem insertMessage_swallows_write_error :
  let sent := answer calm with_ann (MessagesInsert "hi" 999 1) in
  error (snd sent) = Some (missing_key "messages_room_fkey")
  /\ messages (fst sent) = []
  /\ run (insertMessage "hi" 999 1) [] with_ann = (fst sent, Return tt).
Proof. repeat split. Qed.

(** ** The completion route *)

Module CompletionFacts.

Import Completion.

(** C7, as stated, fails: the handler builds its instructions from no
    prompt and no message.  On a request whose message is [hi], for a room
    whose prompt is [be brief], the system instruction carries the constant
    [SystemRoleContenet] and the user instruction the constant
    [jock for animal dog]. *)
Lemma GET_request_carries_neither_prompt_nor_message :
  map content (messages (GET_request "hi"%string "be brief"%string))
  = [SystemRoleContenet; "jock for animal dog"%string]
  /\ map content (messages (GET_request "hi"%string "be brief"%string))
     <> ["be brief"%string; "hi"%string].
Proof.
  split; [reflexivity|]. simpl. discriminate.
Qed.

(** C7, amended. Whatever the request, [handler.GET] sends exactly two
    instructions in order: first a system-role instruction carrying the
    constant [SystemRoleContenet] verbatim, second a user-role instruction
    carrying the constant [userContent]. *)
Theorem GET_request_two_fixed_instructions {Req Ctx : Type} (_req : Req) (_ctx : Ctx) :
  List.length (messages (GET_request _req _ctx)) = 2%nat
  /\ map role (messages (GET_request _req _ctx)) = [system; user]
  /\ map content (messages (GET_request _req _ctx))
     = [SystemRoleContenet; userContent].
Proof. repeat split. Qed.

(** With zero choices the handler answers 200 with no body. *)
Lemma GET_zero_choices :
  GET (Some (mkChatCompletion [])) = Return (mkHttpResponse None 200).
Proof. reflexivity. Qed.

(** C5, as stated, fails: on a completion with zero choices [extractReply]
    does not fail, it yields [undefined], and the handler answers 200 with an
    empty body. *)
Lemma extractReply_zero_choices_no_failure :
  extractReply (Some (mkChatCompletion [])) = Return None
  /\ threw (extractReply (Some (mkChatCompletion []))) = false
  /\ GET (Some (mkChatCompletion [])) = Return (mkHttpResponse None 200).
Proof. repeat split. Qed.

(** C5, amended. On a completion with zero choices [extractReply] yields no
    text ([undefined]) without failing; on a completion with at least one
    choice it returns the content of the first choice's message, unmodified. *)
Theorem extractReply_first_choice (c : ChatCompletion) :
  (choices c = [] -> extractReply (Some c) = Return None)
  /\ (forall ch rest, choices c = ch :: rest ->
        extractReply (Some c) = Return (Some (msg_content (choice_message ch)))).
Proof.
  split.
  - intros E. unfold extractReply. now rewrite E.
  - intros ch rest E. unfold extractReply. now rewrite E.
Qed.

End CompletionFacts.

(** ** [getRooms] *)

Lemma max_created_at_latest (ms : list MessageRow) :
  latest (map m_created_at ms) (max_created_at ms).
Proof.
  induction ms as [|m ms IH]; simpl; [reflexivity|].
  destruct (max_created_at ms) as [t|]; simpl in *.
  - destruct IH as [Hin Hall]. split.
    + destruct (Z.max_spec (m_created_at m) t) as [[_ ->]|[_ ->]]; auto.
    + constructor; [lia|].
      eapply Forall_impl; [|exact Hall]. simpl. intros. lia.
  - apply map_eq_nil in IH. subst. simpl. split; [now left|].
    repeat constructor. lia.
Qed.

Lemma desc_nulls_last_trans (a b c : option Z) :
  desc_nulls_last a b = true -> desc_nulls_last b c = true ->
  desc_nulls_last a c = true.
Proof.
  destruct a, b, c; simpl; try congruence; rewrite !Z.leb_le; lia.
Qed.

Lemma StronglySorted_nth {A : Type} (R : A -> A -> Prop) (l : list A) :
  StronglySorted R l ->
  forall i j a b, nth_error l i = Some a -> nth_error l j = Some b ->
                  (i < j)%nat -> R a b.
Proof.
  induction 1 as [|x l S IH F]; intros i j a b Ha Hb Hij.
  - destruct i; discriminate.
  - destruct j as [|j]; [lia|]. simpl in Hb. destruct i as [|i]; simpl in Ha.
    + injection Ha as <-. rewrite Forall_forall in F. apply F.
      eapply nth_error_In; eauto.
    + eapply IH; eauto. lia.
Qed.

Lemma rooms_with_activity_sorted (ps : list nat) (db : Store) :
  StronglySorted
    (fun a b => desc_nulls_last (a_last_message_at a) (a_last_message_at b) = true)
    (rooms_with_activity ps db).
Proof.
  apply ActivitySort.StronglySorted_sort.
  intros a b c. unfold is_true, ActivityOrder.leb. apply desc_nulls_last_trans.
Qed.

Lemma rooms_with_activity_perm (ps : list nat) (db : Store) :
  Permutation (rooms_with_activity ps db) (map (activity db) (rooms db)).
Proof.
  unfold rooms_with_activity.
  rewrite <- ActivitySort.Permuted_sort. apply reorder_perm.
Qed.

Lemma getRooms_returns (dt : N) (ps : list nat) (envs : list Env) (db : Store) :
  snd (run getRooms (mkEnv None dt ps :: envs) db)
  = Return (map room_view (rooms_with_activity ps db)).
Proof. reflexivity. Qed.

(** C8. [getRooms] returns one entry per room, with [lastMessageAt]
    the latest [created_at] among the room's messages ([null] when it has
    none), most recent first: a room whose latest message is at [T1] stands
    before every room whose latest message is at [T2 < T1], and every room
    with a message stands before every room without one. *)
Theorem getRooms_most_recent_first (db : Store) (dt : N) (ps : list nat)
  (envs : list Env) :
  exists l,
    snd (run getRooms (mkEnv None dt ps :: envs) db) = Return l
    /\ Permutation l
         (map (fun r => mkRoomView (r_id r) (r_name r)
                          (max_created_at (filter (in_room (r_id r)) (messages db))))
              (rooms db))
    /\ (forall r, latest (map m_created_at (filter (in_room (r_id r)) (messages db)))
                         (max_created_at (filter (in_room (r_id r)) (messages db))))
    /\ (forall i j a b T1 T2,
          nth_error l i = Some a -> nth_error l j = Some b ->
          lastMessageAt a = Some T1 -> lastMessageAt b = Some T2 -> T2 < T1 ->
          (i < j)%nat)
    /\ (forall i j a b T,
          nth_error l i = Some a -> nth_error l j = Some b ->
          lastMessageAt a = Some T -> lastMessageAt b = None ->
          (i < j)%nat).
Proof.
  exists (map room_view (rooms_with_activity ps db)).
  split; [apply getRooms_returns|]. split.
  { rewrite rooms_with_activity_perm, map_map. reflexivity. }
  split; [intros r; apply max_created_at_latest|].
  assert (forall i j a b,
             nth_error (map room_view (rooms_with_activity ps db)) i = Some a ->
             nth_error (map room_view (rooms_with_activity ps db)) j = Some b ->
             (i < j)%nat ->
             desc_nulls_last (lastMessageAt a) (lastMessageAt b) = true) as Ord.
  { intros i j a b Ha Hb Hij. rewrite nth_error_map in Ha, Hb.
    destruct (nth_error _ i) as [a'|] eqn:Ea; [|discriminate].
    destruct (nth_error _ j) as [b'|] eqn:Eb; [|discriminate].
    injection Ha as <-. injection Hb as <-. simpl.
    exact (StronglySorted_nth _ _ (rooms_with_activity_sorted ps db)
             i j a' b' Ea Eb Hij). }
  split.
  - intros i j a b T1 T2 Ha Hb La Lb Hlt.
    destruct (Nat.lt_trichotomy i j) as [H|[->|H]]; [exact H | |].
    + rewrite Ha in Hb. injection Hb as <-. rewrite La in Lb.
      injection Lb as ->. lia.
    + pose proof (Ord _ _ _ _ Hb Ha H) as O. rewrite La, Lb in O. simpl in O.
      apply Z.leb_le in O. lia.
  - intros i j a b T Ha Hb La Lb.
    destruct (Nat.lt_trichotomy i j) as [H|[->|H]]; [exact H | |].
    + rewrite Ha in Hb. injection Hb as <-. congruence.
    + pose proof (Ord _ _ _ _ Hb Ha H) as O. rewrite La, Lb in O. discriminate.
Qed.

(** ** [insertUser] and [getUserByAccessToken] *)

Lemma insertUser_returns (u : DatabaseUser) (t : string) (envs : list Env) (db : Store) :
  let sent := answer (hd calm envs) db
                (UsersUpsert (userId u) (userName u) (avatarUrl u) t) in
  run (insertUser u t) envs db
  = (fst sent,
     match error (snd sent) with
     | Some e => Throw (Error (message e))
     | None => Return tt
     end).
Proof.
  simpl. destruct (answer (hd calm envs) db _) as [db' r]. simpl.
  unfold unless_error. now destruct (error r).
Qed.

(** An upsert either fails and leaves the table as it was, or succeeds and
    leaves exactly one row with the id, carrying the payload. *)
Lemma users_upsert_outcome (id : Z) (n a t : string) (db : Store) :
  wf db ->
  (exists e, users_upsert id n a t db = (db, failed e))
  \/ (snd (users_upsert id n a t db) = minimal
      /\ exists created,
           filter (has_user_id id) (users (fst (users_upsert id n a t db)))
           = [mkUser id created n a t]).
Proof.
  intros W. pose proof (wf_users_upsert id n a t db W) as W'.
  unfold users_upsert in *.
  destruct (existsb _ (users db)) eqn:Eg; [left; eauto|].
  right. destruct (existsb (has_user_id id) (users db)) eqn:Ei; simpl in *.
  - split; [reflexivity|].
    apply existsb_exists in Ei. destruct Ei as (u0 & Hu0 & E0).
    apply Z.eqb_eq in E0. exists (u_created_at u0).
    set (new := mkUser id (clock db) n a t) in *.
    assert (overwrite new u0 = mkUser id (u_created_at u0) n a t) as Eo.
    { unfold overwrite, has_user_id. simpl. rewrite E0, Z.eqb_refl. reflexivity. }
    rewrite <- Eo.
    replace id with (u_id (overwrite new u0)) at 1 by (rewrite Eo; reflexivity).
    apply (filter_key_unique u_id Z.eqb Zeqb_spec'); [apply W'|].
    now apply in_map.
  - split; [reflexivity|]. exists (clock db).
    change id with (u_id (mkUser id (clock db) n a t)) at 1.
    apply (filter_key_unique u_id Z.eqb Zeqb_spec'); [apply W'|].
    apply in_or_app. right. now left.
Qed.

(** The upsert goes through when no other user holds the name. *)
Lemma users_upsert_accepts (id : Z) (n a t : string) (db : Store) :
  (forall u, In u (users db) -> u_username u = n -> u_id u = id) ->
  snd (users_upsert id n a t db) = minimal.
Proof.
  intros H. unfold users_upsert.
  destruct (existsb _ (users db)) eqn:Eg.
  - apply existsb_exists in Eg. destruct Eg as (u & Hu & E).
    apply andb_true_iff in E. destruct E as [En Ei].
    apply String.eqb_eq in En. apply negb_true_iff, Z.eqb_neq in Ei.
    now specialize (H u Hu En).
  - now destruct (existsb (has_user_id id) (users db)).
Qed.

(** C9. Two upserts of the same [userId], the first of which succeeded,
    leave exactly one row of [users] with that id; when the second succeeds
    too (it does whenever its request goes through and no other user holds the
    new name), that row carries the name, avatar and token of the second. *)
Theorem insertUser_last_write_wins
  (db : Store) (u1 u2 : DatabaseUser) (t1 t2 : string) (envs1 envs2 : list Env) :
  wf db -> userId u1 = userId u2 ->
  snd (run (insertUser u1 t1) envs1 db) = Return tt ->
  let db1 := fst (run (insertUser u1 t1) envs1 db) in
  let second := run (insertUser u2 t2) envs2 db1 in
  List.length (filter (has_user_id (userId u2)) (users (fst second))) = 1%nat
  /\ (snd second = Return tt ->
      exists created,
        filter (has_user_id (userId u2)) (users (fst second))
        = [mkUser (userId u2) created (userName u2) (avatarUrl u2) t2])
  /\ (faultless (hd calm envs2) ->
      (forall u, In u (users db1) -> u_username u = userName u2 ->
                 u_id u = userId u2) ->
      snd second = Return tt).
Proof.
  intros W Eid R1 db1 second.
  assert (wf db1) as W1 by (apply wf_run, W).
  assert (exists row1, filter (has_user_id (userId u2)) (users db1) = [row1])
    as (row1 & Hrow1).
  { unfold db1. rewrite insertUser_returns in R1 |- *. simpl in R1 |- *.
    rewrite <- Eid. unfold answer in *.
    destruct (fault (hd calm envs1)); [discriminate|]. simpl in *.
    destruct (users_upsert_outcome (userId u1) (userName u1) (avatarUrl u1) t1
                _ (wf_advance (elapsed (hd calm envs1)) db W))
      as [(e & E)|(_ & created & E)].
    - rewrite E in R1. discriminate.
    - eauto. }
  unfold second. rewrite insertUser_returns. simpl. unfold answer.
  destruct (fault (hd calm envs2)) as [f|] eqn:Ef; simpl.
  - rewrite Hrow1. split; [reflexivity|]. split; [discriminate|].
    unfold faultless. congruence.
  - destruct (users_upsert_outcome (userId u2) (userName u2) (avatarUrl u2) t2
                _ (wf_advance (elapsed (hd calm envs2)) db1 W1))
      as [(e & E)|(Em & created & E)].
    + rewrite E. simpl. rewrite Hrow1. split; [reflexivity|].
      split; [discriminate|]. intros _ H.
      pose proof (users_upsert_accepts (userId u2) (userName u2) (avatarUrl u2) t2
                    (advance (elapsed (hd calm envs2)) db1) H) as A.
      rewrite E in A. discriminate.
    + rewrite E, Em. simpl. split; [reflexivity|]. split; eauto.
Qed.

(** User 1 renamed by a second upsert. *)
Lemma insertUser_last_write_wins_witness :
  let second :=
    run (insertUser (mkDatabaseUser 1 "anna" "anna.png") "t-anna") [] with_ann in
  List.length (filter (has_user_id 1) (users (fst second))) = 1%nat
  /\ exists created,
       filter (has_user_id 1) (users (fst second))
       = [mkUser 1 created "anna" "anna.png" "t-anna"].
Proof.
  intros second.
  destruct (insertUser_last_write_wins seeded
              (mkDatabaseUser 1 "ann" "ann.png") (mkDatabaseUser 1 "anna" "anna.png")
              "t-ann" "t-anna" [] [] wf_seeded eq_refl eq_refl) as (H1 & H2 & _).
  split; [exact H1 | exact (H2 eq_refl)].
Defined.

(** C10. The storage accepts a new user whose access token another row
    already carries (the unique indexes are on [id] and [username] only), and
    [getUserByAccessToken] then returns, without failing, the first row of the
    rows that the storage delivers for the token, reduced to [userId],
    [userName] and [avatarUrl]. *)
Theorem getUserByAccessToken_first_of_duplicates
  (db : Store) (u : DatabaseUser) (t : string) (env : Env) (envs : list Env)
  (dt : N) (ps : list nat) :
  wf db -> faultless env ->
  ~ In (userId u) (map u_id (users db)) ->
  ~ In (userName u) (map u_username (users db)) ->
  let db' := fst (run (insertUser u t) (env :: envs) db) in
  snd (run (insertUser u t) (env :: envs) db) = Return tt
  /\ filter (has_token t) (users db')
     = filter (has_token t) (users db)
       ++ [mkUser (userId u) (clock db + Z.of_N (elapsed env))
                  (userName u) (avatarUrl u) t]
  /\ forall first rest,
       reorder ps (filter (has_token t) (users db')) = first :: rest ->
       snd (run (getUserByAccessToken t) (mkEnv None dt ps :: envs) db')
       = Return (Some (mkDatabaseUser (u_id first) (u_username first)
                                      (u_avatar_url first))).
Proof.
  intros W F Hid Hname db'.
  assert (run (insertUser u t) (env :: envs) db
          = (set_users (advance (elapsed env) db)
               (users db ++ [mkUser (userId u) (clock db + Z.of_N (elapsed env))
                                    (userName u) (avatarUrl u) t]),
             Return tt)) as E.
  { rewrite insertUser_returns. simpl. unfold answer. rewrite F. simpl.
    unfold users_upsert. simpl.
    replace (existsb _ (users db)) with false.
    - apply user_id_not_In in Hid. now rewrite Hid.
    - symmetry. apply not_true_iff_false. intros H.
      apply existsb_exists in H. destruct H as (v & Hv & Ev).
      apply andb_true_iff in Ev. destruct Ev as [En _].
      apply String.eqb_eq in En. apply Hname. rewrite <- En. now apply in_map. }
  unfold db'. rewrite E. simpl. split; [reflexivity|]. split.
  - rewrite filter_app. simpl. unfold has_token at 2. simpl.
    now rewrite String.eqb_refl.
  - intros first rest Hfirst. unfold answer. simpl.
    unfold users_by_token. simpl. now rewrite Hfirst.
Qed.

(** A second user with the token of the first: which of the two the lookup
    returns follows the delivery order. *)
Lemma getUserByAccessToken_first_of_duplicates_witness :
  let bob := mkDatabaseUser 2 "bob" "bob.png" in
  let db' := fst (run (insertUser bob "t-ann") [] with_ann) in
  List.length (filter (has_token "t-ann") (users db')) = 2%nat
  /\ snd (run (getUserByAccessToken "t-ann") [] db')
     = Return (Some (mkDatabaseUser 1 "ann" "ann.png"))
  /\ snd (run (getUserByAccessToken "t-ann") [mkEnv None 0 [1%nat]] db')
     = Return (Some bob).
Proof.
  intros bob db'.
  assert (~ In (userId bob) (map u_id (users with_ann))) as Hid
    by (simpl; intros [H|[]]; discriminate).
  assert (~ In (userName bob) (map u_username (users with_ann))) as Hname
    by (simpl; intros [H|[]]; discriminate).
  split; [reflexivity|]. split.
  - destruct (getUserByAccessToken_first_of_duplicates with_ann bob "t-ann"
                calm [] 0 [] wf_with_ann eq_refl Hid Hname) as (_ & _ & H).
    exact (H _ _ eq_refl).
  - destruct (getUserByAccessToken_first_of_duplicates with_ann bob "t-ann"
                calm [] 0 [1%nat] wf_with_ann eq_refl Hid Hname) as (_ & _ & H).
    exact (H _ _ eq_refl).
Defined.

(** ** [getRoomMessages] after a sequence of [insertMessage] calls *)

Lemma send_effect (db : Store) (c : Send) :
  wf db ->
  users (send db c) = users db /\ rooms (send db c) = rooms db
  /\ exists rows, messages (send db c) = messages db ++ rows
                  /\ Forall2 row_of (if accepted db c then [c] else []) rows.
Proof.
  intros W. unfold send. rewrite insertMessage_returns. simpl.
  unfold answer, accepted.
  destruct (fault (s_env c)); simpl.
  - repeat split. exists []. rewrite app_nil_r. split; [reflexivity | constructor].
  - unfold messages_insert.
    rewrite (fresh_message_id _ (wf_advance _ _ W)). simpl.
    destruct (existsb (has_user_id (s_user c)) (users db)); simpl.
    + destruct (existsb (has_room_id (s_room c)) (rooms db)); simpl.
      * repeat split. eexists. split; [reflexivity|].
        repeat constructor.
      * repeat split. exists []. rewrite app_nil_r.
        split; [reflexivity | constructor].
    + repeat split. exists []. rewrite app_nil_r.
      split; [reflexivity | constructor].
Qed.

Lemma wf_send (db : Store) (c : Send) : wf db -> wf (send db c).
Proof. intros W. apply wf_run, W. Qed.

Lemma accepted_ext (db db' : Store) (c : Send) :
  users db' = users db -> rooms db' = rooms db -> accepted db' c = accepted db c.
Proof. intros Eu Er. unfold accepted. now rewrite Eu, Er. Qed.

Lemma insertMessages_effect (calls : list Send) (db : Store) :
  wf db ->
  wf (insertMessages calls db)
  /\ users (insertMessages calls db) = users db
  /\ rooms (insertMessages calls db) = rooms db
  /\ exists rows, messages (insertMessages calls db) = messages db ++ rows
                  /\ Forall2 row_of (filter (accepted db) calls) rows.
Proof.
  revert db. induction calls as [|c calls IH]; intros db W; simpl.
  - split; [exact W|]. split; [reflexivity|]. split; [reflexivity|].
    exists []. rewrite app_nil_r. split; [reflexivity | constructor].
  - destruct (send_effect db c W) as (Eu & Er & rows1 & Em & F1).
    destruct (IH _ (wf_send db c W)) as (W' & Eu' & Er' & rows2 & Em' & F2).
    split; [exact W'|]. split; [congruence|]. split; [congruence|].
    exists (rows1 ++ rows2). split.
    + rewrite Em', Em. now rewrite app_assoc.
    + rewrite (filter_ext _ _ (fun c' => accepted_ext db (send db c) c' Eu Er)) in F2.
      destruct (accepted db c); simpl.
      * inversion F1 as [|? ? ? ? P T]; subst. inversion T; subst.
        simpl. now constructor.
      * inversion F1; subst. exact F2.
Qed.

Lemma Forall2_filter {A B : Type} (P : A -> B -> Prop) (f : A -> bool) (g : B -> bool)
  (l1 : list A) (l2 : list B) :
  (forall a b, P a b -> f a = g b) ->
  Forall2 P l1 l2 -> Forall2 P (filter f l1) (filter g l2).
Proof.
  intros H. induction 1 as [|a b l1 l2 Pab _ IH]; simpl; [constructor|].
  rewrite (H _ _ Pab). destruct (g b); [now constructor | exact IH].
Qed.

Lemma extract_Forall2 {A B : Type} (P : A -> B -> Prop) (k : nat)
  (l1 : list A) (l2 : list B) :
  Forall2 P l1 l2 ->
  match extract k l1, extract k l2 with
  | Some (x, r), Some (y, r') => P x y /\ Forall2 P r r'
  | None, None => True
  | _, _ => False
  end.
Proof.
  intros H. revert k. induction H as [|a b l1 l2 Pab F IH]; intros k; simpl.
  - exact I.
  - destruct k as [|k]; [now split|].
    specialize (IH k).
    destruct (extract k l1) as [[x r]|], (extract k l2) as [[y r']|]; try tauto.
    destruct IH. split; [assumption | now constructor].
Qed.

Lemma reorder_Forall2 {A B : Type} (P : A -> B -> Prop) (ks : list nat)
  (l1 : list A) (l2 : list B) :
  Forall2 P l1 l2 -> Forall2 P (reorder ks l1) (reorder ks l2).
Proof.
  revert l1 l2. induction ks as [|k ks IH]; intros l1 l2 H; simpl; [exact H|].
  pose proof (extract_Forall2 P k l1 l2 H) as E.
  destruct (extract k l1) as [[x r]|], (extract k l2) as [[y r']|];
    try contradiction; [|exact H].
  destruct E. constructor; [assumption | now apply IH].
Qed.

Lemma message_views_shown (db : Store) (rows : list MessageRow)
  (views : list MessageView) :
  Forall2 (shown_as db) rows views ->
  message_views (map (message_cols db) rows) = Ret views.
Proof.
  induction 1 as [|m v rows views (u & Eu & ->) _ IH]; simpl; [reflexivity|].
  rewrite Eu, IH. reflexivity.
Qed.

Lemma find_user (id : Z) (l : list UserRow) :
  In id (map u_id l) -> exists u, find (has_user_id id) l = Some u /\ In u l /\ u_id u = id.
Proof.
  intros H. destruct (find (has_user_id id) l) as [u|] eqn:E.
  - exists u. split; [reflexivity|]. apply find_some in E.
    destruct E as [Hu E]. split; [exact Hu | now apply Z.eqb_eq].
  - exfalso. apply in_map_iff in H. destruct H as (u & Eu & Hu).
    pose proof (find_none _ _ E u Hu) as N. unfold has_user_id in N.
    apply Z.eqb_neq in N. contradiction.
Qed.

Lemma StronglySorted_map_filter {A : Type} (f : A -> Z) (p : A -> bool) (l : list A) :
  StronglySorted Z.le (map f l) -> StronglySorted Z.le (map f (filter p l)).
Proof.
  induction l as [|x l IH]; simpl; intros S; [constructor|].
  inversion S as [|? ? S' F]; subst.
  destruct (p x); simpl; [|now apply IH].
  constructor; [now apply IH|].
  rewrite Forall_forall in *. intros y Hy. apply F.
  apply in_map_iff in Hy. destruct Hy as (z & <- & Hz).
  apply filter_In in Hz. apply in_map. tauto.
Qed.

Lemma filter_both {A : Type} (f g : A -> bool) (l : list A) :
  filter (fun x => f x && g x) l = filter g (filter f l).
Proof.
  induction l as [|x l IH]; simpl; [reflexivity|].
  destruct (f x); simpl; [|exact IH]. destruct (g x); now rewrite IH.
Qed.

Lemma views_of_rows (db : Store) (cs : list Send) (ms : list MessageRow) :
  wf db -> Forall2 row_of cs ms -> incl ms (messages db) ->
  exists views,
    Forall2 (shown_as db) ms views /\ Forall2 (sent_as db) cs views
    /\ map v_createdAt views = map m_created_at ms.
Proof.
  intros W. induction 1 as [|c m cs ms (Et & Ef & Er) _ IH]; intros I.
  - exists []. repeat constructor.
  - destruct IH as (views & Sh & Se & Ec).
    { intros x Hx. apply I. now right. }
    pose proof (messages_from_fkey _ W) as FK. rewrite Forall_forall in FK.
    destruct (find_user _ _ (FK m (I m (or_introl eq_refl)) _ Ef))
      as (u & Eu & Hu & Eid).
    exists (mkMessageView (m_message m)
              (mkUserView (u_username u) (u_avatar_url u)) (m_created_at m)
            :: views).
    split; [|split].
    + constructor; [|exact Sh].
      exists (mkUserEmbed (u_username u) (u_avatar_url u)).
      split; [|reflexivity]. unfold embed_from. now rewrite Ef, Eu.
    + constructor; [|exact Se]. split; [exact Et|].
      exists u. repeat split; assumption.
    + simpl. now rewrite Ec.
Qed.

(** C3, as stated, fails: after two calls into the seed room, one time unit
    apart, the storage may deliver the later row first, and
    [getRoomMessages] returns the rows as delivered. *)
Lemma getRoomMessages_not_chronological :
  let db := insertMessages
              [mkSend "one" 0 1 (mkEnv None 1 []); mkSend "two" 0 1 (mkEnv None 1 [])]
              with_ann in
  exists views,
    snd (run (getRoomMessages 0) [mkEnv None 0 [1%nat]] db) = Return views
    /\ views = [mkMessageView "two" (mkUserView "ann" "ann.png") 2;
                mkMessageView "one" (mkUserView "ann" "ann.png") 1]
    /\ ~ StronglySorted Z.le (map v_createdAt views).
Proof.
  eexists. split; [reflexivity|]. split; [reflexivity|].
  intros S. inversion S as [|? ? _ F]; subst. inversion F; subst. lia.
Qed.

(** C3, amended. After any sequence of [insertMessage] calls on a database
    in which room [R] has no message yet, [getRoomMessages(R)] returns exactly
    the messages of the calls into [R] that the storage stored, each with the
    name and avatar of its author, in the order in which the storage delivers
    the rows (the query asks for none); that order is the insertion order,
    with non-decreasing [createdAt], when the storage delivers the rows in
    table order. *)
Theorem getRoomMessages_delivers_sent
  (db0 : Store) (R : Z) (calls : list Send) (dt : N) (ps : list nat)
  (envs : list Env) :
  wf db0 -> filter (in_room R) (messages db0) = [] ->
  let db := insertMessages calls db0 in
  let sent := filter (fun c => accepted db0 c && (s_room c =? R)) calls in
  exists views,
    Forall2 (sent_as db0) sent views
    /\ StronglySorted Z.le (map v_createdAt views)
    /\ snd (run (getRoomMessages R) (mkEnv None dt ps :: envs) db)
       = Return (reorder ps views)
    /\ Permutation (reorder ps views) views
    /\ snd (run (getRoomMessages R) (mkEnv None dt [] :: envs) db) = Return views.
Proof.
  intros W Hempty db sent.
  destruct (insertMessages_effect calls db0 W) as (W1 & Eu & Er & rows & Em & F).
  fold db in W1, Eu, Er, Em.
  assert (filter (in_room R) (messages db) = filter (in_room R) rows) as Erows
    by (now rewrite Em, filter_app, Hempty).
  assert (Forall2 row_of sent (filter (in_room R) rows)) as FR.
  { unfold sent. rewrite filter_both. apply Forall2_filter; [|exact F].
    intros c m (_ & _ & Hr). unfold in_room. now rewrite Hr. }
  destruct (views_of_rows db sent (filter (in_room R) rows) W1 FR)
    as (views & Sh & Se & Ec).
  { rewrite <- Erows. intros m Hm. now apply filter_In in Hm. }
  assert (forall ks es,
             snd (run (getRoomMessages R) (mkEnv None dt ks :: es) db)
             = Return (reorder ks views)) as Run.
  { intros ks es. simpl. unfold answer. simpl. unfold messages_by_room. simpl.
    rewrite Erows.
    change (message_cols (advance dt db)) with (message_cols db).
    rewrite (message_views_shown db _ (reorder ks views));
      [reflexivity | now apply reorder_Forall2]. }
  exists views. split; [|split; [|split; [|split]]].
  - unfold sent_as in *. now rewrite <- Eu.
  - rewrite Ec, <- Erows. apply StronglySorted_map_filter. apply W1.
  - apply Run.
  - apply reorder_perm.
  - apply (Run [] envs).
Qed.

(** Two messages into the seed room, read back later row first. *)
Lemma getRoomMessages_delivers_sent_witness :
  let calls := [mkSend "one" 0 1 (mkEnv None 1 []); mkSend "two" 0 1 (mkEnv None 1 [])] in
  let db := insertMessages calls with_ann in
  exists views,
    Forall2 (sent_as with_ann) calls views
    /\ StronglySorted Z.le (map v_createdAt views)
    /\ snd (run (getRoomMessages 0) [mkEnv None 0 [1%nat]] db)
       = Return (reorder [1%nat] views)
    /\ Permutation (reorder [1%nat] views) views
    /\ snd (run (getRoomMessages 0) [mkEnv None 0 []] db) = Return views.
Proof.
  exact (getRoomMessages_delivers_sent with_ann 0
           [mkSend "one" 0 1 (mkEnv None 1 []); mkSend "two" 0 1 (mkEnv None 1 [])]
           0 [1%nat] [] wf_with_ann eq_refl).
Defined.

(** ** What no method does *)

Lemma extends_refl (db : Store) : extends db db.
Proof.
  repeat split; try (exists []; now rewrite app_nil_r). lia.
Qed.

Lemma extends_trans (a b c : Store) : extends a b -> extends b c -> extends a c.
Proof.
  intros ((r1 & R1) & (m1 & M1) & (i1 & I1) & C1)
         ((r2 & R2) & (m2 & M2) & (i2 & I2) & C2).
  split; [|split; [|split]].
  - exists (r1 ++ r2). now rewrite R2, R1, app_assoc.
  - exists (m1 ++ m2). now rewrite M2, M1, app_assoc.
  - exists (i1 ++ i2). now rewrite I2, I1, app_assoc.
  - lia.
Qed.

Lemma extends_advance (dt : N) (db : Store) : extends db (advance dt db).
Proof.
  repeat split; try (exists []; simpl; now rewrite app_nil_r). simpl. lia.
Qed.

Lemma extends_by (db db' : Store) (rs : list RoomRow) (ms : list MessageRow)
  (ids : list Z) :
  rooms db' = rooms db ++ rs -> messages db' = messages db ++ ms ->
  map u_id (users db') = map u_id (users db) ++ ids -> clock db <= clock db' ->
  extends db db'.
Proof. intros. repeat split; eauto. Qed.

Lemma extends_statement {A : Type} (q : Query A) (ps : list nat) (db : Store) :
  extends db (fst (statement q ps db)).
Proof.
  destruct q; simpl; try apply extends_refl.
  - unfold users_upsert.
    destruct (existsb _ (users db)); simpl; [apply extends_refl|].
    destruct (existsb (has_user_id id) (users db)); simpl.
    + apply (extends_by _ _ [] [] []); simpl;
        rewrite ?map_overwrite_ids, ?app_nil_r; (reflexivity || lia).
    + apply (extends_by _ _ [] [] [id]); simpl;
        rewrite ?map_app, ?app_nil_r; (reflexivity || lia).
  - unfold rooms_insert.
    destruct (existsb (has_room_id _) (rooms db)); simpl.
    { apply (extends_by _ _ [] [] []); simpl; rewrite ?app_nil_r;
        (reflexivity || lia). }
    destruct (existsb (has_room_name name0) (rooms db)); simpl.
    { apply (extends_by _ _ [] [] []); simpl; rewrite ?app_nil_r;
        (reflexivity || lia). }
    apply (extends_by _ _ [mkRoom (rooms_seq db + 1) (clock db) name0 prompt] [] []);
      simpl; rewrite ?app_nil_r; (reflexivity || lia).
  - unfold messages_insert.
    repeat (destruct (existsb _ _); simpl);
      try (apply (extends_by _ _ [] [] []); simpl; rewrite ?app_nil_r;
           (reflexivity || lia)).
    apply (extends_by _ _ []
             [mkMessage (messages_seq db + 1) (clock db) text (Some from) (Some room)]
             []);
      simpl; rewrite ?app_nil_r; (reflexivity || lia).
Qed.

Lemma extends_answer {A : Type} (env : Env) (db : Store) (q : Query A) :
  extends db (fst (answer env db q)).
Proof.
  unfold answer. destruct (fault env); simpl; [apply extends_advance|].
  eapply extends_trans; [apply extends_advance | apply extends_statement].
Qed.

Lemma extends_run {R : Type} (p : Prog R) (envs : list Env) (db : Store) :
  extends db (fst (run p envs db)).
Proof.
  revert envs db. induction p as [r|e|A q k IH]; intros envs db; simpl;
    try apply extends_refl.
  pose proof (extends_answer (hd calm envs) db q) as E.
  destruct (answer (hd calm envs) db q) as [db' r]. simpl in E.
  eapply extends_trans; [exact E | apply IH].
Qed.

(** X1. Whatever the class is asked to do, in whatever sequence, nothing is
    deleted or rewritten in [rooms] and [messages] (the old rows are the first
    rows afterwards, unchanged), no user id disappears, and the clock does not
    go back. *)
Theorem no_method_deletes {R : Type} (p : Prog R) (envs : list Env) (db : Store) :
  let db' := fst (run p envs db) in
  (exists rs, rooms db' = rooms db ++ rs)
  /\ (exists ms, messages db' = messages db ++ ms)
  /\ (forall id, In id (map u_id (users db)) -> In id (map u_id (users db')))
  /\ clock db <= clock db'.
Proof.
  destruct (extends_run p envs db) as (Hr & Hm & (ids & Hi) & Hc).
  split; [exact Hr|]. split; [exact Hm|]. split; [|exact Hc].
  intros id H. rewrite Hi. apply in_or_app. now left.
Qed.

(** X2. The name and the prompt of a room never change: once a room is
    stored, [getRoomNamePrompt] returns the same pair after any further calls
    to the class. *)
Theorem room_name_prompt_stable {R : Type} (db : Store) (r : RoomRow)
  (p : Prog R) (envs : list Env) (dt : N) (ps : list nat) (es : list Env) :
  wf db -> In r (rooms db) ->
  snd (run (getRoomNamePrompt (r_id r)) (mkEnv None dt ps :: es)
           (fst (run p envs db)))
  = Return (mkNamePrompt (r_name r) (r_prompt r)).
Proof.
  intros W H.
  pose proof (wf_run p envs db W) as W'.
  destruct (extends_run p envs db) as ((rs & Hr) & _).
  assert (In r (rooms (fst (run p envs db)))) as H'
    by (rewrite Hr; apply in_or_app; now left).
  simpl. unfold answer. simpl.
  rewrite (rooms_by_id_present _ r (advance _ _))
    by (now apply wf_advance || exact H').
  reflexivity.
Qed.

(** The seed room keeps its name and its absent prompt through a rename of a
    user, a new room and a message. *)
Lemma room_name_prompt_stable_witness :
  snd (run (getRoomNamePrompt 0) [mkEnv None 0 []]
           (fst (run (let! _a := call insertUser (mkDatabaseUser 1 "ann" "a.png") "t" in
                      let! _b := call ensureRoom "Den" "be brief" in
                      insertMessage "hi" 0 1)
                     [] seeded)))
  = Return (mkNamePrompt "Lobby" None).
Proof.
  exact (room_name_prompt_stable seeded (mkRoom 0 0 "Lobby" None) _ [] 0 [] []
           wf_seeded (or_introl eq_refl)).
Defined.

(** ** Users by token *)

Lemma filter_none {A : Type} (p : A -> bool) (l : list A) :
  existsb p l = false -> filter p l = [].
Proof.
  induction l as [|x l IH]; simpl; [reflexivity|].
  destruct (p x); simpl; [discriminate | exact IH].
Qed.

(** X3. [getUserByAccessTokenOrThrow] throws
    [Error("Could not find user with access token.")] when no row carries the
    token (where [getUserByAccessToken] returns [undefined]), and otherwise
    returns the user that [getUserByAccessToken] returns: the first row
    delivered. *)
Theorem getUserByAccessTokenOrThrow_outcome (db : Store) (t : string) (dt : N)
  (ps : list nat) (envs : list Env) :
  (existsb (has_token t) (users db) = false ->
   snd (run (getUserByAccessToken t) (mkEnv None dt ps :: envs) db) = Return None
   /\ snd (run (getUserByAccessTokenOrThrow t) (mkEnv None dt ps :: envs) db)
      = Throw (Error "Could not find user with access token."))
  /\ (forall first rest,
        reorder ps (filter (has_token t) (users db)) = first :: rest ->
        let found := mkDatabaseUser (u_id first) (u_username first)
                                    (u_avatar_url first) in
        snd (run (getUserByAccessToken t) (mkEnv None dt ps :: envs) db)
        = Return (Some found)
        /\ snd (run (getUserByAccessTokenOrThrow t) (mkEnv None dt ps :: envs) db)
           = Return found).
Proof.
  split.
  - intros H. simpl. unfold answer. simpl. unfold users_by_token. simpl.
    rewrite (filter_none _ _ H), reorder_nil. split; reflexivity.
  - intros first rest H found. simpl. unfold answer. simpl.
    unfold users_by_token. simpl. rewrite H. split; reflexivity.
Qed.

Lemma users_upsert_others (id : Z) (n a t : string) (db : Store) (v : UserRow) :
  In v (users (fst (users_upsert id n a t db))) -> u_id v <> id -> In v (users db).
Proof.
  unfold users_upsert.
  destruct (existsb _ (users db)); simpl; [auto|].
  destruct (existsb (has_user_id id) (users db)); simpl; intros H Hne.
  - apply in_map_iff in H. destruct H as (v0 & E & H0).
    unfold overwrite, has_user_id in E. simpl in E.
    destruct (Z.eqb_spec (u_id v0) id) as [Ei|Ei].
    + subst v. simpl in Hne. contradiction.
    + now subst v.
  - apply in_app_or in H. destruct H as [H|[<-|[]]]; [exact H|].
    simpl in Hne. contradiction.
Qed.

(** X4. A user stored under a token that no other user carries is the one
    that a lookup by that token returns: [insertUser] followed by
    [getUserByAccessTokenOrThrow] gives back the [userId], [userName] and
    [avatarUrl] that were stored. *)
Theorem insertUser_then_lookup (db : Store) (u : DatabaseUser) (t : string)
  (envs : list Env) (dt : N) (ps : list nat) (es : list Env) :
  wf db ->
  (forall v, In v (users db) -> u_access_token v = t -> u_id v = userId u) ->
  snd (run (insertUser u t) envs db) = Return tt ->
  snd (run (getUserByAccessTokenOrThrow t) (mkEnv None dt ps :: es)
           (fst (run (insertUser u t) envs db)))
  = Return u.
Proof.
  intros W Htok R1.
  rewrite insertUser_returns in R1 |- *. simpl in R1 |- *.
  unfold answer in R1 |- *.
  destruct (fault (hd calm envs)); [discriminate|]. simpl in R1 |- *.
  set (db1 := advance (elapsed (hd calm envs)) db) in *.
  assert (wf db1) as W1 by now apply wf_advance.
  destruct (users_upsert_outcome (userId u) (userName u) (avatarUrl u) t db1 W1)
    as [(e & E)|(_ & created & E)]; [rewrite E in R1; discriminate|].
  set (db2 := fst (users_upsert (userId u) (userName u) (avatarUrl u) t db1)) in *.
  assert (filter (has_token t) (users db2) = filter (has_user_id (userId u)) (users db2))
    as Ef.
  { apply filter_ext_in. intros v Hv. unfold has_user_id.
    destruct (Z.eqb_spec (u_id v) (userId u)) as [Ei|Ei].
    - assert (In v (filter (has_user_id (userId u)) (users db2))) as Hin
        by (apply filter_In; split; [exact Hv | now apply Z.eqb_eq]).
      rewrite E in Hin. destruct Hin as [<-|[]]. unfold has_token. simpl.
      apply String.eqb_refl.
    - unfold has_token. apply String.eqb_neq. intros Et. apply Ei.
      apply Htok; [|exact Et].
      exact (users_upsert_others _ _ _ _ db1 v Hv Ei). }
  unfold answer. simpl. unfold users_by_token. simpl.
  change (users (advance dt db2)) with (users db2).
  rewrite Ef, E, reorder_one. simpl. now destruct u.
Qed.

(** Ann, stored on the seeded database, is found by her token. *)
Lemma insertUser_then_lookup_witness :
  snd (run (getUserByAccessTokenOrThrow "t-ann") [mkEnv None 0 []] with_ann)
  = Return (mkDatabaseUser 1 "ann" "ann.png").
Proof.
  exact (insertUser_then_lookup seeded (mkDatabaseUser 1 "ann" "ann.png") "t-ann"
           [] 0 [] [] wf_seeded (fun v H => match H with end) eq_refl).
Defined.

(** X5. For a user that the columns can hold (an id within [integer], texts
    without NUL) and a request that is served and answered: [insertUser]
    throws the storage's unique-violation message when another user holds the
    [userName], and then no row has changed; it returns when no other user
    holds it. *)
Theorem insertUser_rejected (db : Store) (u : DatabaseUser) (t : string)
  (envs : list Env) :
  pg_integer (userId u) -> pg_text (userName u) -> pg_text (avatarUrl u) ->
  pg_text t -> faultless (hd calm envs) ->
  let r := run (insertUser u t) envs db in
  ((exists v, In v (users db) /\ u_username v = userName u
              /\ u_id v <> userId u) ->
   snd r = Throw (Error (message (duplicate_key "users_username_key")))
   /\ users (fst r) = users db /\ rooms (fst r) = rooms db
   /\ messages (fst r) = messages db)
  /\ ((forall v, In v (users db) -> u_username v = userName u ->
                 u_id v = userId u) ->
      snd r = Return tt).
Proof.
  intros _ _ _ _ F r. unfold r. rewrite insertUser_returns. simpl. unfold answer.
  rewrite F. simpl. split.
  - intros (v & Hv & En & Ei). unfold users_upsert.
    replace (existsb _ _) with true; [now repeat split|].
    symmetry. apply existsb_exists. exists v. split; [exact Hv|].
    unfold has_username, has_user_id. apply andb_true_iff.
    split; [now apply String.eqb_eq|].
    now apply negb_true_iff, Z.eqb_neq.
  - intros H.
    now rewrite (users_upsert_accepts _ _ _ _ (advance _ db) H).
Qed.

(** A second user who asks for Ann's name is turned away, and Ann's row
    stays. *)
Lemma insertUser_rejected_witness :
  let r := run (insertUser (mkDatabaseUser 2 "ann" "bob.png") "t-bob") [] with_ann in
  snd r = Throw (Error "duplicate key value violates unique constraint users_username_key")
  /\ users (fst r) = users with_ann /\ rooms (fst r) = rooms with_ann
  /\ messages (fst r) = messages with_ann.
Proof.
  apply (insertUser_rejected with_ann (mkDatabaseUser 2 "ann" "bob.png") "t-bob" []).
  - unfold pg_integer. simpl. lia.
  - unfold pg_text. simpl. intuition discriminate.
  - unfold pg_text. simpl. intuition discriminate.
  - unfold pg_text. simpl. intuition discriminate.
  - reflexivity.
  - exists (mkUser 1 0 "ann" "ann.png" "t-ann"). simpl.
    repeat split; auto. discriminate.
Defined.

(** ** More on [ensureRoom] *)

(** X6. [ensureRoom] with a name that no room has stores one new room with
    that name and prompt under the next id of the sequence and returns the id;
    [getRoomNamePrompt] of the returned id gives the name and the prompt
    back. *)
Theorem ensureRoom_creates (db : Store) (name prompt : string) (e1 e2 : Env)
  (envs : list Env) (dt : N) (ps : list nat) (es : list Env) :
  wf db -> ~ In name (map r_name (rooms db)) -> faultless e1 -> faultless e2 ->
  let r := run (ensureRoom name prompt) (e1 :: e2 :: envs) db in
  snd r = Return (Some (rooms_seq db + 1))
  /\ rooms (fst r)
     = rooms db ++ [mkRoom (rooms_seq db + 1) (clock db + Z.of_N (elapsed e1))
                           name (Some prompt)]
  /\ snd (run (getRoomNamePrompt (rooms_seq db + 1)) (mkEnv None dt ps :: es) (fst r))
     = Return (mkNamePrompt name (Some prompt)).
Proof.
  intros W Hn F1 F2 r.
  set (row := mkRoom (rooms_seq db + 1) (clock db + Z.of_N (elapsed e1))
                     name (Some prompt)).
  set (db1 := set_rooms (advance (elapsed e1) db) (rooms db ++ [row])
                        (rooms_seq db + 1)).
  assert (wf db1) as W1.
  { pose proof (wf_answer e1 db (RoomsInsert name (Some prompt)) W) as Wa.
    unfold answer in Wa. rewrite F1 in Wa. unfold statement in Wa.
    destruct (rooms_insert_cases name (Some prompt) _ (wf_advance (elapsed e1) db W))
      as [[H _]|[_ E]]; [contradiction|].
    rewrite E in Wa. exact Wa. }
  assert (In row (rooms db1)) as Hrow
    by (simpl; apply in_or_app; right; now left).
  assert (r = (advance (elapsed e2) db1, Return (Some (rooms_seq db + 1)))) as Er.
  { unfold r. simpl. unfold answer at 1. rewrite F1. unfold statement.
    destruct (rooms_insert_cases name (Some prompt) _ (wf_advance (elapsed e1) db W))
      as [[H _]|[_ E]]; [contradiction|].
    rewrite E. simpl error. cbv iota.
    exact (ensureRoom_get_finds row e2 envs db1 W1 Hrow F2). }
  rewrite Er. simpl fst. simpl snd. split; [reflexivity|]. split; [reflexivity|].
  pose proof (rooms_by_id_present ps row (advance dt (advance (elapsed e2) db1))
                (wf_advance _ _ (wf_advance _ _ W1)) Hrow) as P.
  change (r_id row) with (rooms_seq db + 1) in P.
  simpl. unfold answer. simpl. rewrite P. reflexivity.
Qed.

(** A first room besides the seed room gets id 1. *)
Lemma ensureRoom_creates_witness :
  let r := run (ensureRoom "Den" "be brief") [calm; calm] seeded in
  snd r = Return (Some 1)
  /\ rooms (fst r) = [mkRoom 0 0 "Lobby" None; mkRoom 1 0 "Den" (Some "be brief"%string)]
  /\ snd (run (getRoomNamePrompt 1) [mkEnv None 0 []] (fst r))
     = Return (mkNamePrompt "Den" (Some "be brief"%string)).
Proof.
  apply (ensureRoom_creates seeded "Den" "be brief" calm calm [] 0 [] [] wf_seeded);
    [simpl; intros [H|[]]; discriminate | reflexivity | reflexivity].
Defined.

(** X7. [ensureRoom] with the name of an existing room changes no row of
    [rooms], whatever happens to its two requests: no second row is added and
    the stored prompt is not replaced by the prompt of the call. *)
Theorem ensureRoom_keeps_existing (db : Store) (name prompt : string)
  (envs : list Env) :
  wf db -> In name (map r_name (rooms db)) ->
  rooms (fst (run (ensureRoom name prompt) envs db)) = rooms db.
Proof.
  intros W Hn. simpl. unfold answer at 1.
  destruct (fault (hd calm envs)) as [f|]; simpl.
  - destruct (negb (String.eqb (code f) "23505")); simpl; [reflexivity|].
    unfold answer. destruct (fault (hd calm (tl envs))); simpl; [reflexivity|].
    destruct (map r_id _); reflexivity.
  - destruct (rooms_insert_cases name (Some prompt) _
                (wf_advance (elapsed (hd calm envs)) db W)) as [[_ E]|[H _]];
      [|contradiction].
    rewrite E. simpl. unfold answer.
    destruct (fault (hd calm (tl envs))); simpl; [reflexivity|].
    destruct (map r_id _); reflexivity.
Qed.

(** A call for [Lobby] with a prompt leaves the seed room without one. *)
Lemma ensureRoom_keeps_existing_witness :
  rooms (fst (run (ensureRoom "Lobby" "be brief") [] seeded))
  = [mkRoom 0 0 "Lobby" None].
Proof.
  exact (ensureRoom_keeps_existing seeded "Lobby" "be brief" [] wf_seeded
           (or_introl eq_refl)).
Defined.

(** X8. The insert is not undone when the re-read fails: if the insert of a
    new name is stored and the request of the re-read fails, [ensureRoom]
    throws the error of the re-read and the room is in the table. *)
Theorem ensureRoom_reread_failure (db : Store) (name prompt : string)
  (e1 e2 : Env) (f : PgError) (envs : list Env) :
  wf db -> ~ In name (map r_name (rooms db)) ->
  faultless e1 -> fault e2 = Some f ->
  let r := run (ensureRoom name prompt) (e1 :: e2 :: envs) db in
  snd r = Throw (Error (message f))
  /\ filter (has_room_name name) (rooms (fst r))
     = [mkRoom (rooms_seq db + 1) (clock db + Z.of_N (elapsed e1)) name (Some prompt)].
Proof.
  intros W Hn F1 F2 r.
  assert (r = (advance (elapsed e2)
                 (set_rooms (advance (elapsed e1) db)
                    (rooms db ++ [mkRoom (rooms_seq db + 1)
                                         (clock db + Z.of_N (elapsed e1))
                                         name (Some prompt)])
                    (rooms_seq db + 1)),
               Throw (Error (message f)))) as Er.
  { unfold r. simpl. unfold answer at 1. rewrite F1. unfold statement.
    destruct (rooms_insert_cases name (Some prompt) _ (wf_advance (elapsed e1) db W))
      as [[H _]|[_ E]]; [contradiction|].
    rewrite E. simpl. unfold answer. rewrite F2. reflexivity. }
  rewrite Er. simpl. split; [reflexivity|].
  rewrite filter_app. simpl. unfold has_room_name at 2. simpl.
  rewrite String.eqb_refl.
  change (filter (has_room_name name) (rooms db))
    with (filter (fun x => String.eqb (r_name x) name) (rooms db)).
  now rewrite (filter_key_absent r_name String.eqb Seqb_spec').
Qed.

(** A room created while the answer to the re-read is lost. *)
Lemma ensureRoom_reread_failure_witness :
  let r := run (ensureRoom "Den" "be brief")
               [calm; mkEnv (Some (mkPgError "fetch failed" "")) 0 []] seeded in
  snd r = Throw (Error "fetch failed")
  /\ filter (has_room_name "Den") (rooms (fst r))
     = [mkRoom 1 0 "Den" (Some "be brief"%string)].
Proof.
  apply (ensureRoom_reread_failure seeded "Den" "be brief" calm
           (mkEnv (Some (mkPgError "fetch failed" "")) 0 [])
           (mkPgError "fetch failed" "") [] wf_seeded);
    [simpl; intros [H|[]]; discriminate | reflexivity | reflexivity].
Defined.

(** X9. [ensureRoom] runs off its end when the insert is answered with an
    error of code 23505 and the re-read finds no row with the name: the call
    then resolves to [undefined], throws nothing and stores nothing. *)
Theorem ensureRoom_undefined (db : Store) (name prompt : string)
  (e1 e2 : Env) (f : PgError) (envs : list Env) :
  fault e1 = Some f -> code f = "23505"%string ->
  ~ In name (map r_name (rooms db)) -> faultless e2 ->
  let r := run (ensureRoom name prompt) (e1 :: e2 :: envs) db in
  snd r = Return None /\ rooms (fst r) = rooms db.
Proof.
  intros F1 Hc Hn F2 r.
  assert (r = (advance (elapsed e2) (advance (elapsed e1) db), Return None)) as Er.
  { unfold r. simpl. unfold answer at 1. rewrite F1.
    simpl. rewrite Hc. simpl. unfold answer. rewrite F2. simpl.
    now rewrite (rooms_by_name_absent _ name (advance _ (advance _ db))) by exact Hn. }
  rewrite Er. split; reflexivity.
Qed.

(** An answer with code 23505 for a name that no room has. *)
Lemma ensureRoom_undefined_witness :
  let r := run (ensureRoom "Den" "be brief")
               [mkEnv (Some (mkPgError "duplicate key" "23505")) 0 []; calm] seeded in
  snd r = Return None /\ rooms (fst r) = rooms seeded.
Proof.
  apply (ensureRoom_undefined seeded "Den" "be brief"
           (mkEnv (Some (mkPgError "duplicate key" "23505")) 0 []) calm
           (mkPgError "duplicate key" "23505") []);
    [reflexivity | reflexivity | simpl; intros [H|[]]; discriminate | reflexivity].
Defined.

Lemma room_by_id_unique (db : Store) (r r' : RoomRow) :
  wf db -> In r (rooms db) -> In r' (rooms db) -> r_id r = r_id r' -> r = r'.
Proof.
  intros W H H' E.
  pose proof (filter_key_unique r_id Z.eqb Zeqb_spec' r (rooms db)
                (rooms_pkey _ W) H) as F.
  pose proof (filter_key_unique r_id Z.eqb Zeqb_spec' r' (rooms db)
                (rooms_pkey _ W) H') as F'.
  rewrite E in F. congruence.
Qed.

(** X10. Calls of [ensureRoom] for different names never return the same
    id, however they are interleaved. *)
Theorem ensureRoom_distinct_names
  (db0 : Store) (reqs : list (string * string)) (sched : list Decision) :
  wf db0 ->
  Forall (fun d => sound (snd d)) sched ->
  let s := interleave sched (db0, ensureRoom_calls reqs) in
  forall i j ni nj pi pj vi vj,
    nth_error reqs i = Some (ni, pi) -> nth_error reqs j = Some (nj, pj) ->
    ni <> nj ->
    nth_error (snd s) i = Some (Ret vi) -> nth_error (snd s) j = Some (Ret vj) ->
    vi <> vj.
Proof.
  intros W S s i j ni nj pi pj vi vj Ri Rj Hne Pi Pj.
  assert (calls_inv true reqs (fun i => (0 + resumes sched i)%nat) s) as (Ws & _ & H).
  { apply calls_inv_interleave; [|now apply calls_inv_start].
    eapply Forall_impl; [|exact S]. intros d Sd. split; [exact Sd | discriminate]. }
  destruct (H _ _ Ri) as (p & k & Ep & Cs & _).
  rewrite Pi in Ep. injection Ep as <-.
  destruct (call_state_returned _ _ _ _ _ Cs) as (r & -> & Hr & En).
  destruct (H _ _ Rj) as (p' & k' & Ep' & Cs' & _).
  rewrite Pj in Ep'. injection Ep' as <-.
  destruct (call_state_returned _ _ _ _ _ Cs') as (r' & -> & Hr' & En').
  simpl in En, En'. intros [= E]. apply Hne.
  rewrite <- En, <- En'. f_equal. exact (room_by_id_unique _ r r' Ws Hr Hr' E).
Qed.

(** Two calls for two new names, interleaved. *)
Lemma ensureRoom_distinct_names_witness :
  let s := interleave [(0, calm); (1, calm); (1, calm); (0, calm)]%nat
             (seeded, ensureRoom_calls [("Den", "a"); ("Attic", "b")]%string) in
  snd s = [Ret (Some 1); Ret (Some 2)] /\ Some 1 <> Some 2.
Proof.
  split; [reflexivity|].
  assert (Forall (fun d : Decision => sound (snd d))
                 [(0, calm); (1, calm); (1, calm); (0, calm)]%nat) as S
    by (repeat constructor).
  exact (ensureRoom_distinct_names seeded [("Den", "a"); ("Attic", "b")]%string
           _ wf_seeded S 0%nat 1%nat "Den"%string "Attic"%string
           "a"%string "b"%string (Some 1) (Some 2)
           eq_refl eq_refl ltac:(discriminate) eq_refl eq_refl).
Defined.

(** ** More on messages *)

(** X11. [insertMessage] always resolves, touches neither [users] nor
    [rooms], and adds at most one message: exactly one, with the next id of
    the sequence and the time of the statement, when the request is served and
    both the user and the room exist, and none otherwise. *)
Theorem insertMessage_effect (db : Store) (text : string) (roomId userId : Z)
  (env : Env) (envs : list Env) :
  wf db ->
  let r := run (insertMessage text roomId userId) (env :: envs) db in
  snd r = Return tt
  /\ users (fst r) = users db /\ rooms (fst r) = rooms db
  /\ messages (fst r)
     = messages db
       ++ (if accepted db (mkSend text roomId userId env)
           then [mkMessage (messages_seq db + 1) (clock db + Z.of_N (elapsed env))
                           text (Some userId) (Some roomId)]
           else []).
Proof.
  intros W r. unfold r. rewrite insertMessage_returns. simpl.
  split; [reflexivity|]. unfold answer, accepted. simpl.
  destruct (fault env); simpl.
  - now rewrite app_nil_r.
  - unfold messages_insert.
    rewrite (fresh_message_id _ (wf_advance _ _ W)). simpl.
    destruct (existsb (has_user_id userId) (users db)); simpl;
      [|now rewrite app_nil_r].
    destruct (existsb (has_room_id roomId) (rooms db)); simpl;
      [|now rewrite app_nil_r].
    repeat split.
Qed.

(** A message into the seed room is stored; one into a room that does not
    exist is dropped. *)
Lemma insertMessage_effect_witness :
  messages (fst (run (insertMessage "hi" 0 1) [mkEnv None 5 []] with_ann))
  = [mkMessage 1 5 "hi" (Some 1) (Some 0)]
  /\ messages (fst (run (insertMessage "hi" 999 1) [mkEnv None 5 []] with_ann)) = [].
Proof.
  split.
  - exact (proj2 (proj2 (proj2 (insertMessage_effect with_ann "hi" 0 1
                                  (mkEnv None 5 []) [] wf_with_ann)))).
  - exact (proj2 (proj2 (proj2 (insertMessage_effect with_ann "hi" 999 1
                                  (mkEnv None 5 []) [] wf_with_ann)))).
Defined.

Lemma filter_all_false {A : Type} (p : A -> bool) (l : list A) :
  (forall x, In x l -> p x = false) -> filter p l = [].
Proof.
  induction l as [|x l IH]; simpl; intros H; [reflexivity|].
  rewrite (H x (or_introl eq_refl)). apply IH. intros y Hy. apply H. now right.
Qed.

(** X12. [getRoomMessages] of an id within [integer] that no room has does
    not fail: it returns the empty list (the foreign key on [messages.room]
    leaves no message under such an id). *)
Theorem getRoomMessages_unknown_room (db : Store) (R : Z) (dt : N)
  (ps : list nat) (envs : list Env) :
  wf db -> pg_integer R -> ~ In R (map r_id (rooms db)) ->
  snd (run (getRoomMessages R) (mkEnv None dt ps :: envs) db) = Return [].
Proof.
  intros W _ H.
  assert (filter (in_room R) (messages db) = []) as E.
  { apply filter_all_false. intros m Hm.
    pose proof (messages_room_fkey _ W) as FK. rewrite Forall_forall in FK.
    unfold in_room. destruct (m_room m) as [id|] eqn:Er; [|reflexivity].
    apply Z.eqb_neq. intros ->. apply H. exact (FK m Hm R Er). }
  simpl. unfold answer. simpl. unfold messages_by_room. simpl.
  now rewrite E, reorder_nil.
Qed.

(** Room 999 on a database with one message in the seed room. *)
Lemma getRoomMessages_unknown_room_witness :
  snd (run (getRoomMessages 999) [mkEnv None 0 []]
           (fst (run (insertMessage "hi" 0 1) [] with_ann)))
  = Return [].
Proof.
  apply getRoomMessages_unknown_room.
  - apply wf_run, wf_with_ann.
  - unfold pg_integer. lia.
  - simpl. intros [H|[]]. discriminate.
Defined.

Lemma message_views_authorless (rows : list MessageCols) :
  Exists (fun c => c_from c = None) rows ->
  message_views rows = null_read "username".
Proof.
  induction 1 as [c rows H|c rows _ IH]; simpl.
  - now rewrite H.
  - destruct (c_from c); [|reflexivity]. now rewrite IH.
Qed.

(** X13. [getRoomMessages] fails on a room that holds a message without an
    author ([from] is nullable in the schema): reading [m.from.username]
    throws a [TypeError], and no message of the room is returned. *)
Theorem getRoomMessages_authorless (db : Store) (R : Z) (m : MessageRow) (dt : N)
  (ps : list nat) (envs : list Env) :
  In m (messages db) -> m_room m = Some R -> m_from m = None ->
  snd (run (getRoomMessages R) (mkEnv None dt ps :: envs) db)
  = Throw (TypeError "Cannot read properties of null (reading username)").
Proof.
  intros Hm Er Ef. simpl. unfold answer. simpl.
  rewrite message_views_authorless; [reflexivity|].
  unfold messages_by_room. apply Exists_exists.
  exists (message_cols (advance dt db) m). split.
  - apply in_map, reorder_In, filter_In. split; [exact Hm|].
    unfold in_room. rewrite Er. apply Z.eqb_refl.
  - simpl. unfold embed_from. now rewrite Ef.
Qed.

(** A row of the seed room whose [from] is [null], next to one with an
    author. *)
Lemma getRoomMessages_authorless_witness :
  snd (run (getRoomMessages 0) [mkEnv None 0 []]
           (mkStore [mkUser 1 0 "ann" "ann.png" "t-ann"]
                    [mkRoom 0 0 "Lobby" None]
                    [mkMessage 1 1 "hi" (Some 1) (Some 0);
                     mkMessage 2 2 "system notice" None (Some 0)]
                    0 2 2))
  = Throw (TypeError "Cannot read properties of null (reading username)").
Proof.
  apply (getRoomMessages_authorless _ 0 (mkMessage 2 2 "system notice" None (Some 0)));
    [simpl; auto | reflexivity | reflexivity].
Defined.

Lemma views_of_authored (db : Store) (ms : list MessageRow) :
  wf db -> incl ms (messages db) -> Forall (fun m => m_from m <> None) ms ->
  exists views, Forall2 (shown_as db) ms views.
Proof.
  intros W. induction ms as [|m ms IH]; intros I F.
  - exists []. constructor.
  - inversion F as [|? ? Hm F']; subst.
    destruct IH as (views & Sh); [intros x Hx; apply I; now right | exact F' |].
    destruct (m_from m) as [id|] eqn:Ef; [|congruence].
    pose proof (messages_from_fkey _ W) as FK. rewrite Forall_forall in FK.
    destruct (find_user _ _ (FK m (I m (or_introl eq_refl)) _ Ef))
      as (u & Eu & _ & _).
    eexists (_ :: views). constructor; [|exact Sh].
    exists (mkUserEmbed (u_username u) (u_avatar_url u)).
    split; [|reflexivity]. unfold embed_from. now rewrite Ef, Eu.
Qed.

(** X14. Messages show their author as stored now, not as stored when the
    message was sent: after [insertUser] replaced the name and avatar of a
    user, [getRoomMessages] pairs every message of that user, old ones
    included, with the new name and avatar. *)
Theorem getRoomMessages_shows_current_author (db : Store) (u : DatabaseUser)
  (t : string) (envs : list Env) (R : Z) (dt : N) (ps : list nat) (es : list Env) :
  wf db ->
  Forall (fun m => m_from m <> None) (filter (in_room R) (messages db)) ->
  snd (run (insertUser u t) envs db) = Return tt ->
  exists views,
    snd (run (getRoomMessages R) (mkEnv None dt ps :: es)
             (fst (run (insertUser u t) envs db)))
    = Return views
    /\ Forall2 (fun m v =>
                  v_message v = m_message m /\ v_createdAt v = m_created_at m
                  /\ (m_from m = Some (userId u) ->
                      v_from v = mkUserView (userName u) (avatarUrl u)))
               (reorder ps (filter (in_room R) (messages db))) views.
Proof.
  intros W Fa R1.
  pose proof (wf_run (insertUser u t) envs db W) as W'.
  rewrite insertUser_returns in R1, W' |- *. simpl in R1, W' |- *.
  unfold answer in R1, W' |- *.
  destruct (fault (hd calm envs)); [discriminate|]. simpl in R1, W' |- *.
  set (db1 := advance (elapsed (hd calm envs)) db) in *.
  destruct (users_upsert_outcome (userId u) (userName u) (avatarUrl u) t db1
              (wf_advance _ _ W)) as [(e & E)|(_ & created & E)];
    [rewrite E in R1; discriminate|].
  set (db2 := fst (users_upsert (userId u) (userName u) (avatarUrl u) t db1)) in *.
  assert (messages db2 = messages db) as Em.
  { unfold db2, users_upsert.
    repeat (destruct (existsb _ _); simpl); reflexivity. }
  destruct (views_of_authored db2 (reorder ps (filter (in_room R) (messages db))) W')
    as (views & Sh).
  { rewrite Em. intros m Hm. apply reorder_In, filter_In in Hm. tauto. }
  { rewrite Forall_forall in *. intros m Hm. apply Fa. now apply reorder_In in Hm. }
  exists views. split.
  - unfold answer. simpl. unfold messages_by_room. simpl.
    change (messages db2) with (messages db2). rewrite Em.
    change (message_cols (advance dt db2)) with (message_cols db2).
    now rewrite (message_views_shown db2 _ views Sh).
  - eapply Forall2_impl; [|exact Sh]. intros m v (ue & Ee & ->). simpl.
    split; [reflexivity|]. split; [reflexivity|]. intros Ef.
    unfold embed_from in Ee. rewrite Ef in Ee.
    destruct (find (has_user_id (userId u)) (users db2)) as [row|] eqn:Efind;
      [|discriminate].
    injection Ee as <-. simpl.
    apply find_some in Efind.
    assert (In row (filter (has_user_id (userId u)) (users db2))) as Hin
      by (apply filter_In; exact Efind).
    rewrite E in Hin. destruct Hin as [<-|[]]. reflexivity.
Qed.

(** Ann's message, read after she became Anna. *)
Lemma getRoomMessages_shows_current_author_witness :
  let db := fst (run (insertMessage "hi" 0 1) [] with_ann) in
  exists views,
    snd (run (getRoomMessages 0) [mkEnv None 0 []]
             (fst (run (insertUser (mkDatabaseUser 1 "anna" "anna.png") "t-ann") [] db)))
    = Return views
    /\ Forall2 (fun m v =>
                  v_message v = m_message m /\ v_createdAt v = m_created_at m
                  /\ (m_from m = Some 1 -> v_from v = mkUserView "anna" "anna.png"))
               [mkMessage 1 0 "hi" (Some 1) (Some 0)] views.
Proof.
  intros db.
  apply (getRoomMessages_shows_current_author db
           (mkDatabaseUser 1 "anna" "anna.png") "t-ann" [] 0 0 [] []).
  - apply wf_run, wf_with_ann.
  - repeat constructor. discriminate.
  - reflexivity.
Defined.

(** X15. A room that has just received a message carries the latest
    [lastMessageAt] of the listing: right after a stored [insertMessage] into
    room [R], [getRooms] shows [R] with the time of that message, and no room
    with a later one. *)
Theorem insertMessage_makes_room_latest (db : Store) (text : string) (R userId : Z)
  (env : Env) (envs : list Env) (dt : N) (ps : list nat) (es : list Env) :
  wf db -> faultless env ->
  In R (map r_id (rooms db)) -> In userId (map u_id (users db)) ->
  let sent_at := clock db + Z.of_N (elapsed env) in
  exists l,
    snd (run getRooms (mkEnv None dt ps :: es)
             (fst (run (insertMessage text R userId) (env :: envs) db)))
    = Return l
    /\ (exists v, In v l /\ roomId v = R /\ lastMessageAt v = Some sent_at)
    /\ (forall v T, In v l -> lastMessageAt v = Some T -> T <= sent_at).
Proof.
  intros W F HR Hu sent_at.
  pose proof (wf_run (insertMessage text R userId) (env :: envs) db W) as W'.
  rewrite (insertMessage_appends text R userId env envs db W F HR Hu) in W' |- *.
  simpl fst in W' |- *.
  set (row := mkMessage (messages_seq db + 1) sent_at text (Some userId) (Some R)).
  set (db' := set_messages (advance (elapsed env) db) (messages db ++ [row])
                           (messages_seq db + 1)) in *.
  exists (map room_view (rooms_with_activity ps db')).
  split; [reflexivity|].
  assert (forall r T,
             max_created_at (filter (in_room (r_id r)) (messages db')) = Some T ->
             T <= sent_at) as Hle.
  { intros r T E.
    pose proof (max_created_at_latest (filter (in_room (r_id r)) (messages db'))) as L.
    rewrite E in L. destruct L as [Hin _].
    apply in_map_iff in Hin. destruct Hin as (m & <- & Hm).
    apply filter_In in Hm. destruct Hm as [Hm _].
    pose proof (messages_past _ W') as P. rewrite Forall_forall in P.
    exact (P m Hm). }
  split.
  - apply in_map_iff in HR. destruct HR as (r & Er & Hr).
    exists (room_view (activity db' r)). split; [|split; [exact Er|]].
    + apply in_map.
      eapply Permutation_in; [symmetry; apply rooms_with_activity_perm|].
      now apply in_map.
    + change (lastMessageAt (room_view (activity db' r)))
        with (max_created_at (filter (in_room (r_id r)) (messages db'))).
      pose proof (max_created_at_latest (filter (in_room (r_id r)) (messages db'))) as L.
      assert (In row (filter (in_room (r_id r)) (messages db'))) as Hrow.
      { apply filter_In. split; [simpl; apply in_or_app; right; now left|].
        unfold in_room. simpl. rewrite Er. apply Z.eqb_refl. }
      destruct (max_created_at (filter (in_room (r_id r)) (messages db')))
        as [T|] eqn:E.
      * destruct L as [_ Hall]. rewrite Forall_forall in Hall.
        specialize (Hall _ (in_map m_created_at _ _ Hrow)). simpl in Hall.
        pose proof (Hle r T E). f_equal. unfold sent_at in *. lia.
      * apply map_eq_nil in L. rewrite L in Hrow. contradiction.
  - intros v T Hv Ev.
    apply in_map_iff in Hv. destruct Hv as (a & <- & Ha).
    apply (Permutation_in _ (rooms_with_activity_perm ps db')) in Ha.
    apply in_map_iff in Ha. destruct Ha as (r & <- & _).
    simpl in Ev. exact (Hle r T Ev).
Qed.

(** A message into the newer of two rooms, five time units on. *)
Lemma insertMessage_makes_room_latest_witness :
  exists l,
    snd (run getRooms [mkEnv None 0 []]
             (fst (run (insertMessage "hi" 0 1) [mkEnv None 5 []] with_ann)))
    = Return l
    /\ (exists v, In v l /\ roomId v = 0 /\ lastMessageAt v = Some 5)
    /\ (forall v T, In v l -> lastMessageAt v = Some T -> T <= 5).
Proof.
  apply (insertMessage_makes_room_latest with_ann "hi" 0 1 (mkEnv None 5 []) [] 0 [] []
           wf_with_ann eq_refl); simpl; auto.
Defined.

(** ** The reading methods *)

Lemma message_views_pure (rows : list MessageCols) (envs : list Env) (db : Store) :
  fst (run (message_views rows) envs db) = db.
Proof.
  assert ((exists v, message_views rows = Ret v)
          \/ (exists e, message_views rows = Raise e)) as [(v & ->)|(e & ->)];
    [|reflexivity|reflexivity].
  induction rows as [|m rows IH]; simpl; [left; eauto|].
  destruct (c_from m); [|right; eexists; reflexivity].
  destruct IH as [(v & ->)|(e & ->)]; simpl; [left|right]; eauto.
Qed.

(** X16. The seven reading methods write nothing, whatever the storage
    answers, and each of them rethrows a failed request as
    [Error(error.message)]. *)
Theorem reading_methods_read_only (accessToken : string) (roomId : Z) :
  reads_only (getUserByAccessToken accessToken)
  /\ reads_only (getUserByAccessTokenOrThrow accessToken)
  /\ reads_only getRooms
  /\ reads_only (getRoomName roomId)
  /\ reads_only (getRoomNamePrompt roomId)
  /\ reads_only (getRoomPrompt roomId)
  /\ reads_only (getRoomMessages roomId).
Proof.
  repeat split; intros; simpl; unfold answer;
    destruct (fault (hd calm envs)) as [f|] eqn:Ef; simpl;
    try reflexivity; try congruence.
  - now destruct (users_by_token _ _ _).
  - now destruct (users_by_token _ _ _).
  - now destruct (map r_name _).
  - unfold single. destruct (map _ _) as [|[n p] [|]]; reflexivity.
  - unfold single. destruct (map _ _) as [|p [|]]; reflexivity.
  - apply message_views_pure.
Qed.

(** ** The loader *)

Lemma served_hd (steps : list Loader.Step) :
  Forall (fun s => Loader.fate s = Loader.served) steps ->
  Loader.fate (hd Loader.quiet steps) = Loader.served
  /\ Forall (fun s => Loader.fate s = Loader.served) (tl steps).
Proof.
  intros F. destruct F; simpl; auto.
Qed.

(** With every statement served, the four [create] statements only let time
    pass and the seed statement runs on the tables as they were. *)
Lemma sql_all_served (steps : list Loader.Step) (db : Store) :
  Forall (fun s => Loader.fate s = Loader.served) steps ->
  exists dt,
    Loader.sql_all [Loader.create_users; Loader.create_rooms; Loader.create_messages;
                    Loader.create_rooms_with_activity; Loader.seed] steps db
    = Loader.insert_lobby (advance dt db).
Proof.
  intros F0.
  destruct (served_hd _ F0) as [E1 F1]. destruct (served_hd _ F1) as [E2 F2].
  destruct (served_hd _ F2) as [E3 F3]. destruct (served_hd _ F3) as [E4 F4].
  destruct (served_hd _ F4) as [E5 _].
  exists (Loader.waited (hd Loader.quiet steps)
          + Loader.waited (hd Loader.quiet (tl steps))
          + Loader.waited (hd Loader.quiet (tl (tl steps)))
          + Loader.waited (hd Loader.quiet (tl (tl (tl steps))))
          + Loader.waited (hd Loader.quiet (tl (tl (tl (tl steps))))))%N.
  simpl. unfold Loader.create_users, Loader.create_rooms, Loader.create_messages,
    Loader.create_rooms_with_activity, Loader.if_not_exists, Loader.seed.
  rewrite E1, E2, E3, E4, E5.
  destruct (Loader.insert_lobby _) as [db' [e|]] eqn:E;
    rewrite <- E; f_equal; unfold advance; simpl; f_equal; lia.
Qed.

Lemma insert_lobby_done (db db' : Store) :
  Loader.insert_lobby db = (db', None) -> In 0 (map r_id (rooms db')).
Proof.
  unfold Loader.insert_lobby.
  destruct (existsb (has_room_id 0) (rooms db)) eqn:E0.
  - intros [= <-]. now apply room_id_In.
  - destruct (existsb (has_room_name "Lobby") (rooms db)); [discriminate|].
    intros [= <-]. simpl. rewrite map_app. apply in_or_app. right. now left.
Qed.

(** The statements of a load that went through left room 0 in the table. *)
Lemma sql_all_done (steps : list Loader.Step) (db db' : Store) :
  Loader.sql_all [Loader.create_users; Loader.create_rooms; Loader.create_messages;
                  Loader.create_rooms_with_activity; Loader.seed] steps db
  = (db', None) ->
  In 0 (map r_id (rooms db')).
Proof.
  simpl. unfold Loader.create_users, Loader.create_rooms, Loader.create_messages,
    Loader.create_rooms_with_activity, Loader.if_not_exists, Loader.seed.
  destruct (Loader.fate (hd Loader.quiet steps)); try discriminate.
  destruct (Loader.fate (hd Loader.quiet (tl steps))); try discriminate.
  destruct (Loader.fate (hd Loader.quiet (tl (tl steps)))); try discriminate.
  destruct (Loader.fate (hd Loader.quiet (tl (tl (tl steps))))); try discriminate.
  destruct (Loader.fate (hd Loader.quiet (tl (tl (tl (tl steps)))))); try discriminate.
  destruct (Loader.insert_lobby _) as [db1 [e|]] eqn:E; [discriminate|].
  intros [= <-]. exact (insert_lobby_done _ _ E).
Qed.

(** X17. [databaseLoader.load] rejects with
    [Missing env variable: SUPABASE_POSTGRES_URI], before any statement, when
    that variable is not set.  With every statement served it resolves exactly
    when the variable is set, the seed row can be placed or skipped (room 0
    exists, or no room is named [Lobby]) and the two variables of the client
    are set and not empty; a room named [Lobby] under another id makes the
    seed fail for its name; and when only the client's url is missing, the
    load rejects although the seed room has been written. *)
Theorem load_outcome (environ : Loader.Environ) (steps : list Loader.Step)
  (db : Store) :
  let all_served := Forall (fun s => Loader.fate s = Loader.served) steps in
  let uri := environ "SUPABASE_POSTGRES_URI"%string in
  let url := environ "SUPABASE_API_URL"%string in
  let key := environ "SUPABASE_ANON_KEY"%string in
  let r := Loader.load environ steps db in
  (uri = None ->
   r = (db, Throw (Error "Missing env variable: SUPABASE_POSTGRES_URI")))
  /\ (all_served ->
      (snd r = Return tt <->
       uri <> None
       /\ (In 0 (map r_id (rooms db)) \/ ~ In "Lobby"%string (map r_name (rooms db)))
       /\ Loader.falsy url = false /\ Loader.falsy key = false))
  /\ (all_served -> uri <> None ->
      ~ In 0 (map r_id (rooms db)) -> In "Lobby"%string (map r_name (rooms db)) ->
      snd r = Throw (Error (message (duplicate_key "rooms_name_key")))
      /\ rooms (fst r) = rooms db)
  /\ (all_served -> uri <> None ->
      ~ In 0 (map r_id (rooms db)) -> ~ In "Lobby"%string (map r_name (rooms db)) ->
      Loader.falsy url = true ->
      snd r = Throw (Error "supabaseUrl is required.")
      /\ In 0 (map r_id (rooms (fst r)))).
Proof.
  intros all_served uri url key r.
  unfold r, Loader.load, Loader.getEnvOrThrow. fold uri.
  split; [intros ->; reflexivity|].
  assert (all_served -> uri <> None ->
          exists dt,
            Loader.load environ steps db
            = match Loader.insert_lobby (advance dt db) with
              | (db', Some e) => (db', Throw (Error (message e)))
              | (db', None) => (db', Loader.createClient url key)
              end) as Hserved.
  { intros F Hu. destruct (sql_all_served steps db F) as (dt & E). exists dt.
    unfold Loader.load, Loader.getEnvOrThrow. fold uri.
    destruct uri; [|congruence]. rewrite E. reflexivity. }
  unfold Loader.load, Loader.getEnvOrThrow in Hserved. fold uri in Hserved.
  split; [|split].
  - intros F. destruct uri as [u|] eqn:Eu.
    + destruct (Hserved F ltac:(discriminate)) as (dt & ->).
      unfold Loader.insert_lobby. simpl rooms.
      destruct (existsb (has_room_id 0) (rooms db)) eqn:E0.
      * apply room_id_In in E0. unfold Loader.createClient. simpl.
        destruct (Loader.falsy url), (Loader.falsy key); simpl;
          (split;
           [ intros H;
             first [ discriminate H
                   | split; [discriminate | split; [now left | split; reflexivity]] ]
           | intros (_ & _ & H1 & H2);
             first [discriminate H1 | discriminate H2 | reflexivity] ]).
      * apply room_id_not_In in E0.
        destruct (existsb (has_room_name "Lobby") (rooms db)) eqn:EL.
        -- apply room_name_In in EL. simpl.
           split; intros H; [discriminate | tauto].
        -- apply room_name_not_In in EL. unfold Loader.createClient. simpl.
           destruct (Loader.falsy url), (Loader.falsy key); simpl;
             (split;
              [ intros H;
                first [ discriminate H
                      | split; [discriminate | split; [now right | split; reflexivity]] ]
              | intros (_ & _ & H1 & H2);
                first [discriminate H1 | discriminate H2 | reflexivity] ]).
    + simpl. split; intros H; [discriminate | tauto].
  - intros F Hu H0 HL. destruct uri as [u|]; [|congruence].
    destruct (Hserved F ltac:(discriminate)) as (dt & ->).
    unfold Loader.insert_lobby. simpl rooms.
    apply room_id_not_In in H0. apply room_name_In in HL. rewrite H0, HL.
    split; reflexivity.
  - intros F Hu H0 HL Hurl. destruct uri as [u|]; [|congruence].
    destruct (Hserved F ltac:(discriminate)) as (dt & ->).
    unfold Loader.insert_lobby. simpl rooms.
    apply room_id_not_In in H0. apply room_name_not_In in HL. rewrite H0, HL.
    unfold Loader.createClient. rewrite Hurl. simpl. split; [reflexivity|].
    rewrite map_app. apply in_or_app. right. now left.
Qed.

(** X18. Once the loader has resolved, loading again with the same
    variables resolves too whenever its statements are served, after any use
    of the class in between, and changes no row and no sequence: the seed room
    is never duplicated. *)
Theorem load_again {R : Type} (environ : Loader.Environ)
  (steps steps' : list Loader.Step) (db : Store) (p : Prog R) (envs : list Env) :
  snd (Loader.load environ steps db) = Return tt ->
  Forall (fun s => Loader.fate s = Loader.served) steps' ->
  let used := fst (run p envs (fst (Loader.load environ steps db))) in
  let again := Loader.load environ steps' used in
  snd again = Return tt
  /\ users (fst again) = users used /\ rooms (fst again) = rooms used
  /\ messages (fst again) = messages used
  /\ rooms_seq (fst again) = rooms_seq used
  /\ messages_seq (fst again) = messages_seq used.
Proof.
  intros H F used again.
  assert (environ "SUPABASE_POSTGRES_URI"%string <> None
          /\ Loader.constructor None environ = Return tt
          /\ In 0 (map r_id (rooms (fst (Loader.load environ steps db)))))
    as (Hu & Hc & H0).
  { revert H. unfold Loader.load, Loader.getEnvOrThrow.
    destruct (environ "SUPABASE_POSTGRES_URI"%string); [|discriminate].
    destruct (Loader.sql_all _ steps db) as [db1 [e|]] eqn:E; [discriminate|].
    simpl. intros Hc. split; [discriminate|]. split; [exact Hc|].
    exact (sql_all_done _ _ _ E). }
  assert (existsb (has_room_id 0) (rooms used) = true) as E0.
  { apply room_id_In.
    destruct (extends_run p envs (fst (Loader.load environ steps db)))
      as ((rs & Hr) & _).
    fold used in Hr. rewrite Hr, map_app. apply in_or_app. now left. }
  destruct (sql_all_served steps' used F) as (dt & E).
  unfold again, Loader.load, Loader.getEnvOrThrow.
  destruct (environ "SUPABASE_POSTGRES_URI"%string); [|congruence].
  rewrite E. unfold Loader.insert_lobby. simpl rooms. rewrite E0.
  cbv beta iota. cbn [fst snd]. rewrite Hc. repeat split.
Qed.

(** A restart after a room was created. *)
Lemma load_again_witness :
  let environ := fun _ : string => Some "set"%string in
  let used := fst (run (ensureRoom "Den" "be brief") []
                       (fst (Loader.load environ [] empty))) in
  snd (Loader.load environ [] used) = Return tt
  /\ rooms (fst (Loader.load environ [] used)) = rooms used.
Proof.
  intros environ used.
  destruct (load_again environ [] [] empty (ensureRoom "Den" "be brief") []
              eq_refl (Forall_nil _)) as (H1 & _ & H2 & _).
  split; [exact H1 | exact H2].
Defined.

(** ** Other users, and calls of any kind at once *)

Lemma users_upsert_frame (id : Z) (n a t : string) (db : Store) :
  rooms (fst (users_upsert id n a t db)) = rooms db
  /\ messages (fst (users_upsert id n a t db)) = messages db
  /\ forall v, u_id v <> id ->
       (In v (users (fst (users_upsert id n a t db))) <-> In v (users db)).
Proof.
  split; [|split].
  - unfold users_upsert. repeat (destruct (existsb _ _); simpl); reflexivity.
  - unfold users_upsert. repeat (destruct (existsb _ _); simpl); reflexivity.
  - intros v Hne. split; [intros H; exact (users_upsert_others _ _ _ _ db v H Hne)|].
    intros H. unfold users_upsert.
    destruct (existsb _ (users db)); simpl; [exact H|].
    destruct (existsb (has_user_id id) (users db)); simpl.
    + apply in_map_iff. exists v. split; [|exact H].
      unfold overwrite, has_user_id. simpl.
      destruct (Z.eqb_spec (u_id v) id); [contradiction | reflexivity].
    + apply in_or_app. now left.
Qed.

(** X19. [insertUser] changes nothing but the row of its [userId]: the rows
    of all other users are the same before and after, and so are [rooms] and
    [messages]. *)
Theorem insertUser_others_untouched (db : Store) (u : DatabaseUser) (t : string)
  (envs : list Env) :
  let db' := fst (run (insertUser u t) envs db) in
  rooms db' = rooms db /\ messages db' = messages db
  /\ forall v, u_id v <> userId u -> (In v (users db') <-> In v (users db)).
Proof.
  intros db'. unfold db'. rewrite insertUser_returns. cbn [fst]. unfold answer.
  destruct (fault (hd calm envs)); cbn [fst]; [now repeat split|].
  exact (users_upsert_frame (userId u) (userName u) (avatarUrl u) t
           (advance (elapsed (hd calm envs)) db)).
Qed.

Lemma wf_resume {R : Type} (env : Env) (db : Store) (p : Prog R) :
  wf db -> wf (fst (resume env db p)).
Proof.
  intros W. destruct p as [r|e|A q k]; simpl; try exact W.
  pose proof (wf_answer env db q W) as Wa.
  now destruct (answer env db q).
Qed.

Lemma extends_resume {R : Type} (env : Env) (db : Store) (p : Prog R) :
  extends db (fst (resume env db p)).
Proof.
  destruct p as [r|e|A q k]; simpl; try apply extends_refl.
  pose proof (extends_answer env db q) as Ea.
  now destruct (answer env db q).
Qed.

(** X20. However calls to the class are interleaved, statement by
    statement, the database keeps the constraints of the schema (unique ids,
    unique user and room names, every message pointing to a stored user and a
    stored room) and loses no room and no message. *)
Theorem interleaving_keeps_schema {R : Type} (sched : list Decision) (db : Store)
  (calls : list (Prog R)) :
  wf db ->
  let db' := fst (interleave sched (db, calls)) in
  NoDup (map u_id (users db')) /\ NoDup (map u_username (users db'))
  /\ NoDup (map r_id (rooms db')) /\ NoDup (map r_name (rooms db'))
  /\ (forall m, In m (messages db') ->
        (forall id, m_from m = Some id -> In id (map u_id (users db')))
        /\ (forall id, m_room m = Some id -> In id (map r_id (rooms db'))))
  /\ (exists rs, rooms db' = rooms db ++ rs)
  /\ (exists ms, messages db' = messages db ++ ms).
Proof.
  intros W db'.
  assert (wf db' /\ extends db db') as [W' ((rs & Hr) & (ms & Hm) & _)].
  { unfold db'. clear db'. revert db calls W.
    induction sched as [|d sched IH]; intros db calls W; simpl.
    - split; [exact W | apply extends_refl].
    - assert (wf (fst (step d (db, calls)))
              /\ extends db (fst (step d (db, calls)))) as [Ws Es].
      { unfold step. simpl.
        destruct (nth_error calls (fst d)) as [p|];
          [|split; [exact W | apply extends_refl]].
        pose proof (wf_resume (snd d) db p W) as Wr.
        pose proof (extends_resume (snd d) db p) as Er.
        now destruct (resume (snd d) db p). }
      destruct (step d (db, calls)) as [db1 calls1]. simpl in Ws, Es.
      destruct (IH db1 calls1 Ws) as [W2 E2].
      split; [exact W2 | eapply extends_trans; eauto]. }
  split; [apply W'|]. split; [apply W'|]. split; [apply W'|]. split; [apply W'|].
  split; [|split; [exists rs; exact Hr | exists ms; exact Hm]].
  intros m Hm'. split.
  - pose proof (messages_from_fkey _ W') as FK. rewrite Forall_forall in FK.
    exact (FK m Hm').
  - pose proof (messages_room_fkey _ W') as FK. rewrite Forall_forall in FK.
    exact (FK m Hm').
Qed.

(** A rename, a new room and a message into it, interleaved. *)
Lemma interleaving_keeps_schema_witness :
  let db' := fst (interleave [(0, calm); (1, calm); (2, calm); (1, calm)]%nat
                    (with_ann,
                     [ (let! _u := call insertUser (mkDatabaseUser 1 "anna" "a.png") "t" in
                        Ret None);
                       ensureRoom "Den" "be brief";
                       (let! _m := call insertMessage "hi" 1 1 in Ret None) ])) in
  NoDup (map r_name (rooms db')) /\ List.length (messages db') = 1%nat.
Proof.
  intros db'. split; [|reflexivity].
  exact (proj1 (proj2 (proj2 (proj2
           (interleaving_keeps_schema _ with_ann _ wf_with_ann))))).
Defined.
